(** * Option pricing tool: Black-Scholes pricer, payoff engine and P&L grid

    A shallow embedding of [app.py] (functions [ranges], [BlackScholes],
    [calculate_payoff] and the module-level construction of
    [heatmap_data]) and the properties of its specification.

    Numbers.  The program computes with Python ints, Python floats, numpy
    int64 and numpy float64 ([scalar]).  A float is an IEEE binary64
    value ([float64]): a rational number, an infinity or NaN.  The
    arithmetic operations are those of IEEE 754 with rounding to nearest,
    ties to even: the exact rational result is rounded to 53 significant
    bits, to a multiple of [2^-1074] in the subnormal range, and to an
    infinity from [2^1024 - 2^970] on ([round64]).  The two zeros are one
    value; a division by zero takes the zero for +0.0, which it is
    wherever the program divides by a computed zero with a volatility
    that is not negative.

    Python and numpy differ where the program can observe it.  On Python
    numbers a division by zero raises [ZeroDivisionError], the conversion
    of a large int to a float and an overflowing [**] raise
    [OverflowError]; with a numpy operand the same operations return an
    infinity or NaN and raise nothing.  What depends on more than this (a
    complex result, an int64 that wraps around, a Python int outside
    int64 meeting a numpy scalar) ends a computation as [Unmodelled].

    Library functions.  [np.log], [np.exp], [norm.cdf] and the power
    function are parameters ([libm]) of which a few properties are
    assumed; the theorems hold for every such choice, and the witnesses
    use one ([sample_libm]). *)

From Stdlib Require Import Lia ZArith QArith Qround Qabs Qpower Lqa String List Bool Sorted.
Import ListNotations.

(** ** Binary64 numbers *)

(** [2 ^ e] for an integer exponent. *)
Definition Qpow2 (e : Z) : Q :=
  match e with
  | Z0 => 1
  | Zpos p => inject_Z (2 ^ Zpos p)
  | Zneg p => 1 # (2 ^ p)
  end%Q.

(** The integer part of the binary logarithm of a positive rational. *)
Definition Qlog2 (q : Q) : Z :=
  let e := (Z.log2 (Qnum q) - Z.log2 (Zpos (Qden q)))%Z in
  if Qle_bool (Qpow2 e) q then e else (e - 1)%Z.

(** Nearest integer, ties to even. *)
Definition Qrne (q : Q) : Z :=
  let n := Qfloor q in
  match Qcompare (q - inject_Z n) (1 # 2) with
  | Lt => n
  | Gt => (n + 1)%Z
  | Eq => if Z.even n then n else (n + 1)%Z
  end.

(** The binary64 number nearest to [q]: 53 significant bits, ties to even
    (the result is in lowest terms). *)
Definition round53 (q : Q) : Q :=
  let q := Qred q in
  if Qeq_bool q 0 then 0%Q
  else let e := (Qlog2 (Qabs q) - 52)%Z in
       Qred (inject_Z (Qrne (q * Qpow2 (- e))) * Qpow2 e).

(** A binary64 value: a finite number, an infinity or NaN.  The two zeros
    are one value, as they are for [==]. *)
Inductive float64 : Type :=
| Fin (q : Q)
| PInf
| NInf
| NaN.

(** The binary64 result of an operation whose exact result is [q]: the
    nearest number with 53 significant bits, or with the spacing [2^-1074]
    of the subnormal numbers, ties to even; an infinity from
    [2^1024 - 2^970] on, where the nearest number would be [2^1024]. *)
Definition round64 (q : Q) : float64 :=
  let q := Qred q in
  if Qeq_bool q 0 then Fin 0
  else if Qle_bool (Qpow2 1024 - Qpow2 970) (Qabs q) then
    if Qle_bool 0 q then PInf else NInf
  else
    let e := Z.max (Qlog2 (Qabs q) - 52) (- 1074) in
    Fin (Qred (inject_Z (Qrne (q * Qpow2 (- e))) * Qpow2 e)).

(** The infinity with the sign of [a]; NaN when [a] is zero. *)
Definition signed_inf (a : Q) : float64 :=
  match Qcompare a 0 with
  | Eq => NaN
  | Gt => PInf
  | Lt => NInf
  end.

Definition fneg (x : float64) : float64 :=
  match x with
  | Fin a => Fin (- a)
  | PInf => NInf
  | NInf => PInf
  | NaN => NaN
  end.

Definition fadd (x y : float64) : float64 :=
  match x, y with
  | NaN, _ | _, NaN => NaN
  | Fin a, Fin b => round64 (a + b)
  | PInf, NInf | NInf, PInf => NaN
  | PInf, _ | _, PInf => PInf
  | NInf, _ | _, NInf => NInf
  end.

Definition fsub (x y : float64) : float64 := fadd x (fneg y).

Definition fmul (x y : float64) : float64 :=
  match x, y with
  | NaN, _ | _, NaN => NaN
  | Fin a, Fin b => round64 (a * b)
  | Fin a, PInf | PInf, Fin a => signed_inf a
  | Fin a, NInf | NInf, Fin a => signed_inf (- a)
  | PInf, PInf | NInf, NInf => PInf
  | PInf, NInf | NInf, PInf => NInf
  end.

(** Division as numpy does it: [a / 0] is an infinity with the sign of [a],
    and [0 / 0] is NaN. *)
Definition fdiv (x y : float64) : float64 :=
  match x, y with
  | NaN, _ | _, NaN => NaN
  | Fin a, Fin b => if Qeq_bool b 0 then signed_inf a else round64 (a / b)
  | Fin _, (PInf | NInf) => Fin 0
  | PInf, Fin b => if Qle_bool 0 b then PInf else NInf
  | NInf, Fin b => if Qle_bool 0 b then NInf else PInf
  | (PInf | NInf), (PInf | NInf) => NaN
  end.

(** [rint]: the nearest integer, ties to even. *)
Definition frint (x : float64) : float64 :=
  match x with
  | Fin a => Fin (inject_Z (Qrne a))
  | _ => x
  end.

(** [round(x, 2)] of a numpy float64: [rint(x * 100) / 100]. *)
Definition fround2 (x : float64) : float64 :=
  fdiv (frint (fmul x (Fin 100))) (Fin 100).

Definition is_zero (x : float64) : bool :=
  match x with Fin a => Qeq_bool a 0 | _ => false end.

(** The binary64 value of an integer ([float(z)], and the conversion of an
    int64). *)
Definition of_int (z : Z) : float64 := round64 (inject_Z z).

Definition in_int64 (z : Z) : bool :=
  ((- 2 ^ 63 <=? z) && (z <? 2 ^ 63))%Z.

(** ** Effects: console output, exceptions *)

Inductive exn : Type :=
| ZeroDivisionError
| OverflowError
| TypeError
| UnboundLocalError
| ValueError.

(** How a call ends: it returns, it raises, or it leaves the model
    ([Unmodelled]: a complex number, an int64 result that may wrap around,
    an operation whose result depends on the version of numpy). *)
Inductive result (A : Type) : Type :=
| Ok (a : A)
| Raise (e : exn)
| Unmodelled.
Arguments Ok {A} a.
Arguments Raise {A} e.
Arguments Unmodelled {A}.

(** A computation: the lines printed, and how it ended. *)
Definition M (A : Type) : Type := (list string * result A)%type.

Definition ret {A} (a : A) : M A := ([], Ok a).
Definition raise {A} (e : exn) : M A := ([], Raise e).
Definition unmodelled {A} : M A := ([], Unmodelled).
Definition print (s : string) : M unit := ([s], Ok tt).

Definition bind {A B} (m : M A) (f : A -> M B) : M B :=
  match m with
  | (out, Ok a) => let (out', r) := f a in (out ++ out', r)
  | (out, Raise e) => (out, Raise e)
  | (out, Unmodelled) => (out, Unmodelled)
  end.

Notation "x <- m ;; k" := (bind m (fun x => k))
  (at level 61, m at next level, right associativity).
Notation "m ;;; k" := (bind m (fun _ => k))
  (at level 61, right associativity).

(** [try: body except: handler] with a bare [except], which catches every
    exception. *)
Definition try_except {A} (body handler : M A) : M A :=
  match body with
  | (out, Raise _) => let (out', r) := handler in (out ++ out', r)
  | other => other
  end.

(** ** Python and numpy scalars *)

(** The numbers the program computes with: a Python int (unbounded), a
    Python float, a numpy int64 and a numpy float64. *)
Inductive scalar : Type :=
| PyInt (z : Z)
| PyFloat (x : float64)
| NpInt (z : Z)
| NpFloat (x : float64).

Definition is_np (a : scalar) : bool :=
  match a with NpInt _ | NpFloat _ => true | _ => false end.

Definition is_int (a : scalar) : bool :=
  match a with PyInt _ | NpInt _ => true | _ => false end.

(** The binary64 value of a number. *)
Definition value (a : scalar) : float64 :=
  match a with
  | PyInt z | NpInt z => of_int z
  | PyFloat x | NpFloat x => x
  end.

(** The operand of an operation on Python floats: an int is converted, and
    [float(z)] raises when [z] is too large. *)
Definition py_float (a : scalar) : M float64 :=
  match a with
  | PyInt z =>
      match of_int z with
      | Fin q => ret (Fin q)
      | _ => raise OverflowError
      end
  | _ => ret (value a)
  end.

(** The operand of an operation with a numpy scalar.  A Python int outside
    int64 is treated differently by different versions of numpy. *)
Definition np_float (a : scalar) : M float64 :=
  match a with
  | PyInt z => if in_int64 z then ret (of_int z) else unmodelled
  | _ => ret (value a)
  end.

(** An operation with a float operand: the result is a numpy float64 as
    soon as an operand is a numpy scalar, a Python float otherwise.  Float
    operations do not raise: they overflow to an infinity.  Two integers of
    which one is an int64 give an int64, which may wrap around: the program
    has no such operation, and it is not modelled. *)
Definition float_arith (ff : float64 -> float64 -> float64) (a b : scalar)
    : M scalar :=
  if is_int a && is_int b then unmodelled
  else if is_np a || is_np b then
    x <- np_float a ;; y <- np_float b ;; ret (NpFloat (ff x y))
  else
    x <- py_float a ;; y <- py_float b ;; ret (PyFloat (ff x y)).

(** [a + b], [a - b], [a * b]: exact on two Python ints. *)
Definition arith (fz : Z -> Z -> Z) (ff : float64 -> float64 -> float64)
    (a b : scalar) : M scalar :=
  match a, b with
  | PyInt x, PyInt y => ret (PyInt (fz x y))
  | _, _ => float_arith ff a b
  end.

Definition add : scalar -> scalar -> M scalar := arith Z.add fadd.
Definition sub : scalar -> scalar -> M scalar := arith Z.sub fsub.
Definition mul : scalar -> scalar -> M scalar := arith Z.mul fmul.

(** [- a]; the least int64 is its own negation. *)
Definition neg (a : scalar) : scalar :=
  match a with
  | PyInt z => PyInt (- z)
  | PyFloat x => PyFloat (fneg x)
  | NpInt z => NpInt (if (z =? - 2 ^ 63)%Z then z else (- z)%Z)
  | NpFloat x => NpFloat (fneg x)
  end.

(** [a / b] on floats: Python raises on a zero divisor; with a numpy
    operand the division raises nothing. *)
Definition float_truediv (a b : scalar) : M scalar :=
  if is_np a || is_np b then
    x <- np_float a ;; y <- np_float b ;; ret (NpFloat (fdiv x y))
  else
    x <- py_float a ;; y <- py_float b ;;
    if is_zero y then raise ZeroDivisionError else ret (PyFloat (fdiv x y)).

(** [a / b].  Two Python ints give the float nearest to the exact quotient,
    and raise when it is too large for a float. *)
Definition truediv (a b : scalar) : M scalar :=
  match a, b with
  | PyInt x, PyInt y =>
      if (y =? 0)%Z then raise ZeroDivisionError
      else match round64 (inject_Z x / inject_Z y) with
           | Fin q => ret (PyFloat (Fin q))
           | _ => raise OverflowError
           end
  | _, _ => float_truediv a b
  end.

(** [round(a, 2)]: on a numpy float64, [rint(a * 100) / 100]; an int is
    returned as it is.  Python's own rounding of a float, which works on
    the decimal expansion, does not occur in the program. *)
Definition round_2 (a : scalar) : M scalar :=
  match a with
  | NpFloat x => ret (NpFloat (fround2 x))
  | PyFloat _ => unmodelled
  | _ => ret a
  end.

(** A Python value held by a variable of the program. *)
Inductive pyval : Type :=
| VNone
| VNum (x : scalar).

Definition py_sub (a b : pyval) : M pyval :=
  match a, b with
  | VNum x, VNum y => z <- sub x y ;; ret (VNum z)
  | _, _ => raise TypeError
  end.

Definition py_mul (a b : pyval) : M pyval :=
  match a, b with
  | VNum x, VNum y => z <- mul x y ;; ret (VNum z)
  | _, _ => raise TypeError
  end.

Definition py_round_2 (a : pyval) : M pyval :=
  match a with
  | VNum x => z <- round_2 x ;; ret (VNum z)
  | VNone => raise TypeError
  end.

(** ** The library functions

    [np.log], [np.exp], [scipy.stats.norm.cdf(x, 0, 1)], the C function
    [pow] behind Python's [**] on floats, and numpy's [power] on float64
    scalars.  Their results are not fixed here: every property below holds
    for all functions with the following properties, which the functions
    of the libraries have.  The square of a number up to [2^511] is
    finite and the square of a number from [2^512] on is an infinity; a
    square root lies between its argument and 1; the logarithm of a
    positive number is finite, and that of 1 is 0; the exponential of a
    number that is not positive, and the distribution function of any
    number, lie between 0 and 1; the distribution function of NaN is NaN. *)
Record libm : Type := {
  log64 : float64 -> float64;
  exp64 : float64 -> float64;
  cdf64 : float64 -> float64;
  pow64 : float64 -> float64 -> float64;
  np_power : float64 -> float64 -> float64;
  pow64_square_finite : forall q : Q,
    Qabs q <= Qpow2 511 -> exists y : Q, pow64 (Fin q) (Fin 2) = Fin y;
  pow64_square_overflow : forall q : Q,
    Qpow2 512 <= Qabs q -> pow64 (Fin q) (Fin 2) = PInf;
  pow64_root_bounds : forall q : Q,
    0 < q ->
    exists y : Q, pow64 (Fin q) (Fin (1 # 2)) = Fin y /\
                  (q <= 1 -> q <= y /\ y <= 1) /\
                  (1 <= q -> 1 <= y /\ y <= q);
  log64_finite : forall q : Q, 0 < q -> exists y : Q, log64 (Fin q) = Fin y;
  log64_one : log64 (Fin 1) = Fin 0;
  exp64_range : forall q : Q,
    q <= 0 -> exists y : Q, exp64 (Fin q) = Fin y /\ 0 <= y /\ y <= 1;
  cdf64_range : forall x : float64,
    x <> NaN -> exists y : Q, cdf64 x = Fin y /\ 0 <= y /\ y <= 1;
  cdf64_nan : cdf64 NaN = NaN
}.

Section Program.

Context (L : libm).

(** Python's [x ** 2.0] on a float ([float_pow]): the special values are
    answered first, [pow] is called on the absolute value, and an infinite
    result of [pow] raises [OverflowError]. *)
Definition float_pow_2 (x : float64) : M float64 :=
  match x with
  | NaN => ret NaN
  | PInf | NInf => ret PInf
  | Fin q =>
      if Qeq_bool q 0 then ret (Fin 0)
      else if Qeq_bool (Qabs q) 1 then ret (Fin 1)
      else match pow64 L (Fin (Qabs q)) (Fin 2) with
           | PInf | NInf => raise OverflowError
           | y => ret y
           end
  end.

(** Python's [x ** 0.5] on a float; a negative number gives a complex
    number. *)
Definition float_pow_half (x : float64) : M float64 :=
  match x with
  | NaN => ret NaN
  | PInf | NInf => ret PInf
  | Fin q =>
      if Qeq_bool q 0 then ret (Fin 0)
      else if Qle_bool q 0 then unmodelled
      else if Qeq_bool q 1 then ret (Fin 1)
      else match pow64 L (Fin q) (Fin (1 # 2)) with
           | PInf | NInf => raise OverflowError
           | y => ret y
           end
  end.

(** [a ** 2]. *)
Definition pow_2 (a : scalar) : M scalar :=
  match a with
  | PyInt z => ret (PyInt (z * z))
  | PyFloat x => y <- float_pow_2 x ;; ret (PyFloat y)
  | NpInt z => if in_int64 (z * z) then ret (NpInt (z * z)) else unmodelled
  | NpFloat x => ret (NpFloat (np_power L x (Fin 2)))
  end.

(** [a ** 0.5]. *)
Definition pow_half (a : scalar) : M scalar :=
  match a with
  | PyInt _ | PyFloat _ =>
      x <- py_float a ;; y <- float_pow_half x ;; ret (PyFloat y)
  | NpInt _ | NpFloat _ => ret (NpFloat (np_power L (value a) (Fin (1 # 2))))
  end.

Definition np_log (a : scalar) : M scalar :=
  x <- np_float a ;; ret (NpFloat (log64 L x)).

Definition np_exp (a : scalar) : M scalar :=
  x <- np_float a ;; ret (NpFloat (exp64 L x)).

(** [norm.cdf(a, 0, 1)]. *)
Definition norm_cdf (a : scalar) : M scalar :=
  x <- np_float a ;; ret (NpFloat (cdf64 L x)).

(** ** The program *)

(** The [try] statement of the pricer.  The local variable [Price] is bound
    in the two branches only. *)
Definition try_block (S K r t d1 d2 : scalar) (type : string) : M pyval :=
  try_except
    (Price <- (if String.eqb type "Call" then
                 c1 <- norm_cdf d1 ;;
                 a <- mul c1 S ;;
                 c2 <- norm_cdf d2 ;;
                 b <- mul c2 K ;;
                 e <- mul (neg r) t ;;
                 ex <- np_exp e ;;
                 b' <- mul b ex ;;
                 p <- sub a b' ;;
                 p' <- round_2 p ;;
                 ret (Some p')
               else if String.eqb type "Put" then
                 c2 <- norm_cdf (neg d2) ;;
                 a <- mul c2 K ;;
                 e <- mul (neg r) t ;;
                 ex <- np_exp e ;;
                 a' <- mul a ex ;;
                 c1 <- norm_cdf (neg d1) ;;
                 b <- mul c1 S ;;
                 p <- sub a' b ;;
                 p' <- round_2 p ;;
                 ret (Some p')
               else ret None) ;;
     match Price with
     | Some p => ret (VNum p)
     | None => raise UnboundLocalError
     end)
    (print "Please confirm all option parameters above" ;;;
     ret VNone).

(** [BlackScholes(S, K, r, t, v, type)].  [d1] and [d2] are computed before
    the [try]. *)
Definition BlackScholes (S K r t v : scalar) (type : string) : M pyval :=
  q <- truediv S K ;;
  lg <- np_log q ;;
  v2 <- pow_2 v ;;
  h <- truediv v2 (PyInt 2) ;;
  rh <- add r h ;;
  rht <- mul rh t ;;
  num <- add lg rht ;;
  s <- pow_half t ;;
  den <- mul v s ;;
  d1 <- truediv num den ;;
  s' <- pow_half t ;;
  den' <- mul v s' ;;
  d2 <- sub d1 den' ;;
  try_block S K r t d1 d2 type.

(** [calculate_payoff(S1, K, r1, t1, v1, S2, r2, t2, v2, option, position)]. *)
Definition calculate_payoff (S1 K r1 t1 v1 S2 r2 t2 v2 : scalar)
    (option position : string) : M pyval :=
  entry <- BlackScholes S1 K r1 t1 v1 option ;;
  exit <- BlackScholes S2 K r2 t2 v2 option ;;
  if String.eqb position "Long" then
    d <- py_sub exit entry ;;
    p <- py_mul d (VNum (PyInt 100)) ;;
    py_round_2 p
  else
    d <- py_sub entry exit ;;
    p <- py_mul d (VNum (PyInt 100)) ;;
    py_round_2 p.

End Program.

(** ** The axis generator *)

(** Conversion of a float to an integer: truncation towards zero. *)
Definition Qtrunc (q : Q) : Z := Z.quot (Qnum q) (Zpos (Qden q)).

(** [np.linspace(start, stop, num)] on integers, with [endpoint=True]:
    the bounds are converted to binary64, the steps are
    [arange(0, num) * step + start] with [step = (stop - start) / (num - 1)],
    and the last value is set to [stop]. *)
Definition linspace (start stop : Z) (num : nat) : list Q :=
  let fstart := round53 (inject_Z start) in
  let fstop := round53 (inject_Z stop) in
  let div := Z.of_nat (num - 1) in
  let delta := round53 (fstop - fstart) in
  let y := map (fun i => inject_Z (Z.of_nat i)) (seq 0 num) in
  let y :=
    if (0 <? div)%Z then
      let step := round53 (delta / inject_Z div) in
      if Qeq_bool step 0
      then map (fun yi => round53 (round53 (yi / inject_Z div) * delta)) y
      else map (fun yi => round53 (yi * step)) y
    else map (fun yi => round53 (yi * delta)) y in
  let y := map (fun yi => round53 (yi + fstart)) y in
  if (1 <? num)%nat then firstn (num - 1) y ++ [fstop] else y.

(** [.astype(int)]: values outside int64 are not modelled. *)
Definition astype_int (l : list Q) : M (list Z) :=
  if forallb (fun q => in_int64 (Qtrunc q)) l
  then ret (map Qtrunc l)
  else unmodelled.

(** [ranges(x)] for a Python int [x]; bounds outside int64 are not
    modelled. *)
Definition ranges (x : Z) : M (list Z) :=
  let upper_bound := (x + 4)%Z in
  let lower_bound := (x - 4)%Z in
  if in_int64 lower_bound && in_int64 upper_bound then
    let ranges := linspace lower_bound upper_bound 9 in
    astype_int ranges
  else unmodelled.

(** ** The grid *)

(** A numpy int64, as the cells of the two axis columns of [df] are. *)
Definition np_int (z : Z) : scalar := NpInt z.

(** The rows of [df]: [(spot, strike) for spot in spot_range for strike in
    strike_range]. *)
Definition cross (spots strikes : list Z) : list (Z * Z) :=
  flat_map (fun spot => map (fun strike => (spot, strike)) strikes) spots.

(** A function applied to the rows in order; the first exception ends the
    traversal. *)
Fixpoint mapM {A B} (f : A -> M B) (l : list A) : M (list B) :=
  match l with
  | [] => ret []
  | a :: l' => b <- f a ;; bs <- mapM f l' ;; ret (b :: bs)
  end.

(** A pivoted table: the two axes and the cells, row by row. *)
Record frame : Type := {
  index : list Z;
  columns : list Z;
  data : list (list float64)
}.

(** The float64 stored in a column for a Python value. *)
Definition cell_value (p : pyval) : float64 :=
  match p with
  | VNum x => value x
  | VNone => NaN
  end.

Definition key_eqb (a b : Z * Z) : bool :=
  ((fst a =? fst b) && (snd a =? snd b))%Z.

Fixpoint has_duplicate (keys : list (Z * Z)) : bool :=
  match keys with
  | [] => false
  | k :: rest => existsb (key_eqb k) rest || has_duplicate rest
  end.

Fixpoint lookup (k : Z * Z) (rows : list ((Z * Z) * pyval)) : option pyval :=
  match rows with
  | [] => None
  | (k', p) :: rest => if key_eqb k k' then Some p else lookup k rest
  end.

Fixpoint insert_unique (z : Z) (l : list Z) : list Z :=
  match l with
  | [] => [z]
  | y :: l' =>
      if (z <? y)%Z then z :: l
      else if (z =? y)%Z then l
      else y :: insert_unique z l'
  end.

(** The distinct values of a column, ascending. *)
Definition sorted_unique (l : list Z) : list Z := fold_right insert_unique [] l.

(** [df.pivot(index=..., columns=..., values=...)]: the axes are the sorted
    distinct keys, a pair of keys that occurs twice raises [ValueError], and a
    pair that does not occur leaves NaN in its cell. *)
Definition pivot (keys : list (Z * Z)) (vals : list pyval) : M frame :=
  if has_duplicate keys then raise ValueError
  else
    let rows := combine keys vals in
    let idx := sorted_unique (map fst keys) in
    let cols := sorted_unique (map snd keys) in
    ret {| index := idx;
           columns := cols;
           data := map (fun i =>
                     map (fun c =>
                       match lookup (i, c) rows with
                       | Some p => cell_value p
                       | None => NaN
                       end) cols) idx |}.

Section Grid.

Context (L : libm).

(** The module-level construction of [heatmap_data] from the globals:
    [spot_range], [strike_range], [df], the column [df['P&L']] and the
    pivot. *)
Definition heatmap_data (S1 : scalar) (K : Z) (r1 t1 v1 : scalar) (S2 : Z)
    (r2 t2 v2 : scalar) (type position : string) : M frame :=
  spot_range <- ranges S2 ;;
  strike_range <- ranges K ;;
  let df := cross spot_range strike_range in
  pnl <- mapM (fun row =>
                 calculate_payoff L S1 (np_int (snd row)) r1 t1 v1
                                  (np_int (fst row)) r2 t2 v2 type position) df ;;
  pivot df pnl.

End Grid.

Section Formula.

Context (L : libm).

(** ** The pricing formula of the specification

    The formula of the specification on binary64 numbers, with the
    operations of the floating-point arithmetic; [v2] and [st] stand for
    the square of the volatility and the square root of the time as the
    interpreter computes [v ** 2] and [t ** 0.5]. *)

Definition d1_spec (S K r t v v2 st : float64) : float64 :=
  fdiv (fadd (log64 L (fdiv S K)) (fmul (fadd r (fdiv v2 (Fin 2))) t))
       (fmul v st).

Definition d2_spec (S K r t v v2 st : float64) : float64 :=
  fsub (d1_spec S K r t v v2 st) (fmul v st).

Definition call_price_spec (S K r t v v2 st : float64) : float64 :=
  fround2 (fsub (fmul (cdf64 L (d1_spec S K r t v v2 st)) S)
                (fmul (fmul (cdf64 L (d2_spec S K r t v v2 st)) K)
                      (exp64 L (fmul (fneg r) t)))).

Definition put_price_spec (S K r t v v2 st : float64) : float64 :=
  fround2 (fsub (fmul (fmul (cdf64 L (fneg (d2_spec S K r t v v2 st))) K)
                      (exp64 L (fmul (fneg r) t)))
                (fmul (cdf64 L (fneg (d1_spec S K r t v v2 st))) S)).

Definition price_spec (type : string) (S K r t v v2 st : float64) : float64 :=
  if String.eqb type "Call" then call_price_spec S K r t v v2 st
  else put_price_spec S K r t v v2 st.

End Formula.

(** ** Definitions used by the statements *)

(** [a] is the number [q]: a finite float, or an integer that binary64
    holds exactly. *)
Definition holds (a : scalar) (q : Q) : Prop :=
  match a with
  | PyFloat (Fin x) | NpFloat (Fin x) => x = q
  | PyInt z | NpInt z => (Z.abs z <= 2 ^ 53)%Z /\ inject_Z z = q
  | _ => False
  end.

(** [a] is the float [q]. *)
Definition holds_float (a : scalar) (q : Q) : Prop :=
  match a with
  | PyFloat (Fin x) | NpFloat (Fin x) => x = q
  | _ => False
  end.

(** The square of [a] does not overflow in Python: [a] is a numpy scalar,
    whose square is an infinity then, or is at most [2^511]. *)
Definition square_in_range (a : scalar) : Prop :=
  is_np a = true \/ exists q, value a = Fin q /\ Qabs q <= Qpow2 511.

(** The nine integers from [x - 4] to [x + 4]. *)
Definition around (x : Z) : list Z :=
  [x - 4; x - 3; x - 2; x - 1; x; x + 1; x + 2; x + 3; x + 4]%Z.

Definition ascending (l : list Z) : Prop := StronglySorted Z.lt l.

(** The value a computation returns ([d] when it returns none). *)
Definition returned {A} (d : A) (m : M A) : A :=
  match snd m with
  | Ok a => a
  | _ => d
  end.

(** A number between [2^-500] and [2^500]. *)
Definition moderate (q : Q) : Prop := (Qpow2 (- 500) <= q /\ q <= Qpow2 500)%Q.

(** A finite float of absolute value at most [2^k]. *)
Definition bounded (k : Z) (x : float64) : Prop :=
  exists y : Q, x = Fin y /\ (Qabs y <= Qpow2 k)%Q.

(** One choice of library functions: exact squares, and first-order
    approximations for the rest. *)
Module Sample.

Definition pow (x y : float64) : float64 :=
  match x, y with
  | Fin q, Fin e =>
      if Qeq_bool e 2 then round64 (q * q)
      else Fin (Qred ((1 + q) / 2))
  | _, _ => x
  end.

Definition log (x : float64) : float64 :=
  match x with
  | Fin q => if Qle_bool q 0 then (if Qeq_bool q 0 then NInf else NaN)
             else Fin (Qred (q - 1))
  | NInf => NaN
  | _ => x
  end.

Definition exp (x : float64) : float64 :=
  match x with
  | Fin q => if Qle_bool q (- 1) then Fin 0 else Fin (Qred (1 + q))
  | NInf => Fin 0
  | _ => x
  end.

Definition cdf (x : float64) : float64 :=
  match x with
  | Fin q => if Qle_bool q (- 2) then Fin 0
             else if Qle_bool 2 q then Fin 1
             else Fin (Qred ((1 # 2) + q / 4))
  | PInf => Fin 1
  | NInf => Fin 0
  | NaN => NaN
  end.

End Sample.

(** * Properties *)

(** ** Binary64 rounding is exact on integers up to 2^53 *)

Local Open Scope Q_scope.

Lemma Qred_inject_Z n : Qred (inject_Z n) = inject_Z n.
Proof.
  unfold Qred, inject_Z.
  pose proof (Z.ggcd_gcd n 1) as Hg.
  pose proof (Z.ggcd_correct_divisors n 1) as Hd.
  destruct (Z.ggcd n 1) as (g, (a, b)). simpl in *.
  rewrite Z.gcd_1_r in Hg. subst g. destruct Hd as [Ha Hb].
  rewrite Z.mul_1_l in Ha, Hb. subst a b. reflexivity.
Qed.

Lemma round53_Qeq q q' : q == q' -> round53 q = round53 q'.
Proof. intro H. unfold round53. now rewrite (Qred_complete q q' H). Qed.

Lemma Qrne_Z q z : q == inject_Z z -> Qrne q = z.
Proof.
  intro H. unfold Qrne. rewrite (Qfloor_comp _ _ H), Qfloor_Z.
  assert (E : q - inject_Z z == 0) by (rewrite H; ring).
  rewrite (Qcompare_comp _ _ E (1 # 2) (1 # 2) (Qeq_refl _)). reflexivity.
Qed.

Lemma Qpow2_nonneg e : (0 <= e)%Z -> Qpow2 e = inject_Z (2 ^ e).
Proof. destruct e; try reflexivity. lia. Qed.

Lemma Qpow2_mul_opp e : Qpow2 (- e) * Qpow2 e == 1.
Proof.
  destruct e as [|p|p]; [reflexivity| |];
    unfold Qpow2, Z.opp, Qmult, Qeq, inject_Z; cbn [Qnum Qden];
    rewrite ?Pos.mul_1_r, ?Pos.mul_1_l, Pos2Z.inj_pow; lia.
Qed.

Lemma Qlog2_Z n : (0 < n)%Z -> Qlog2 (inject_Z n) = Z.log2 n.
Proof.
  intro Hn. unfold Qlog2. simpl. rewrite Z.sub_0_r.
  destruct (Z.log2_spec n Hn) as [Hl _].
  pose proof (Z.log2_nonneg n) as H0.
  rewrite Qpow2_nonneg by assumption.
  assert (Hb : Qle_bool (inject_Z (2 ^ Z.log2 n)) (inject_Z n) = true).
  { apply Qle_bool_iff. unfold Qle, inject_Z. simpl. lia. }
  now rewrite Hb.
Qed.

Lemma round53_small n : (Z.abs n < 2 ^ 53)%Z -> round53 (inject_Z n) = inject_Z n.
Proof.
  intro Hn. unfold round53. rewrite Qred_inject_Z.
  destruct (Z.eq_dec n 0) as [-> | Hnz]; [reflexivity|].
  replace (Qeq_bool (inject_Z n) 0) with false.
  2:{ symmetry. apply not_true_is_false. intro H. apply Qeq_bool_eq in H.
      unfold Qeq, inject_Z in H. simpl in H. lia. }
  replace (Qabs (inject_Z n)) with (inject_Z (Z.abs n)) by reflexivity.
  rewrite Qlog2_Z by lia.
  assert (Hl : (Z.log2 (Z.abs n) < 53)%Z) by (apply Z.log2_lt_pow2; lia).
  pose proof (Z.log2_nonneg (Z.abs n)) as H0.
  set (e := (Z.log2 (Z.abs n) - 52)%Z).
  assert (He : (0 <= - e)%Z) by (unfold e; lia).
  rewrite (Qrne_Z _ (n * 2 ^ (- e))).
  2:{ rewrite (Qpow2_nonneg (- e) He). unfold Qeq, Qmult, inject_Z. simpl. lia. }
  rewrite <- (Qred_inject_Z n). apply Qred_complete.
  rewrite inject_Z_mult, <- (Qpow2_nonneg (- e) He), <- Qmult_assoc, Qpow2_mul_opp.
  ring.
Qed.

Lemma round53_exact q n :
  q == inject_Z n -> (Z.abs n <= 2 ^ 53)%Z -> round53 q = inject_Z n.
Proof.
  intros Hq Hn. rewrite (round53_Qeq _ _ Hq).
  destruct (Z.eq_dec (Z.abs n) (2 ^ 53)) as [E|NE].
  - assert (n = 2 ^ 53 \/ n = - 2 ^ 53)%Z as [-> | ->] by lia; vm_compute; reflexivity.
  - apply round53_small. lia.
Qed.

Lemma round53_plus_Z a b :
  (Z.abs (a + b) <= 2 ^ 53)%Z ->
  round53 (inject_Z a + inject_Z b) = inject_Z (a + b).
Proof.
  intro H. apply round53_exact; [|exact H]. now rewrite inject_Z_plus.
Qed.

Lemma linspace_exact a :
  (Z.abs a <= 2 ^ 53)%Z -> (Z.abs (a + 8) <= 2 ^ 53)%Z ->
  linspace a (a + 8) 9 =
  map inject_Z [a; a + 1; a + 2; a + 3; a + 4; a + 5; a + 6; a + 7; a + 8]%Z.
Proof.
  intros Ha Hb. unfold linspace.
  rewrite (round53_exact (inject_Z a) a), (round53_exact (inject_Z (a + 8)) (a + 8));
    try reflexivity; try assumption.
  rewrite (round53_exact (inject_Z (a + 8) - inject_Z a) 8).
  2:{ unfold Qminus. rewrite <- inject_Z_opp, <- inject_Z_plus.
      now replace (a + 8 + - a)%Z with 8%Z by lia. }
  2:{ vm_compute. discriminate. }
  change (Z.of_nat (9 - 1)) with 8%Z.
  change (0 <? 8)%Z with true. cbv iota zeta.
  change (round53 (inject_Z 8 / inject_Z 8)) with 1.
  change (Qeq_bool 1 0) with false. cbv iota.
  change (seq 0 9) with [0; 1; 2; 3; 4; 5; 6; 7; 8]%nat.
  cbn [map Z.of_nat Pos.of_succ_nat Pos.succ].
  change (1 <? 9)%nat with true. cbv iota.
  change (9 - 1)%nat with 8%nat. cbn [firstn app].
  change (round53 (inject_Z 0 * 1)) with (inject_Z 0).
  change (round53 (inject_Z 1 * 1)) with (inject_Z 1).
  change (round53 (inject_Z 2 * 1)) with (inject_Z 2).
  change (round53 (inject_Z 3 * 1)) with (inject_Z 3).
  change (round53 (inject_Z 4 * 1)) with (inject_Z 4).
  change (round53 (inject_Z 5 * 1)) with (inject_Z 5).
  change (round53 (inject_Z 6 * 1)) with (inject_Z 6).
  change (round53 (inject_Z 7 * 1)) with (inject_Z 7).
  rewrite !round53_plus_Z by lia.
  cbn [map]. rewrite Z.add_0_l, !(Z.add_comm _ a). reflexivity.
Qed.

Local Close Scope Q_scope.

(** ** Rounding to binary64 *)

Local Open Scope Q_scope.

Lemma round64_Qeq q q' : q == q' -> round64 q = round64 q'.
Proof. intro H. unfold round64. now rewrite (Qred_complete q q' H). Qed.

Lemma Qpow2_pos e : 0 < Qpow2 e.
Proof.
  destruct e as [|p|p]; unfold Qpow2; try reflexivity.
  unfold Qlt, inject_Z. cbn [Qnum Qden].
  assert (0 < 2 ^ Z.pos p)%Z by (apply Z.pow_pos_nonneg; lia). lia.
Qed.

Lemma overflow_threshold_pos : 0 < Qpow2 1024 - Qpow2 970.
Proof. reflexivity. Qed.

(** Below the threshold the result is a finite number. *)
Lemma round64_finite q :
  Qabs q < Qpow2 1024 - Qpow2 970 -> exists y, round64 q = Fin y.
Proof.
  intro H. unfold round64.
  destruct (Qeq_bool (Qred q) 0); [eexists; reflexivity|].
  replace (Qle_bool (Qpow2 1024 - Qpow2 970) (Qabs (Qred q))) with false.
  - eexists; reflexivity.
  - symmetry. apply not_true_is_false. intro E. apply Qle_bool_iff in E.
    rewrite (Qred_correct q) in E. apply (Qlt_irrefl (Qabs q)).
    eapply Qlt_le_trans; eassumption.
Qed.

(** From [2^1024] on the result is +inf. *)
Lemma round64_overflow q : Qpow2 1024 <= q -> round64 q = PInf.
Proof.
  intro H. unfold round64.
  assert (Hp : 0 < q) by (eapply Qlt_le_trans; [apply (Qpow2_pos 1024) | exact H]).
  assert (Hr : Qred q == q) by apply Qred_correct.
  replace (Qeq_bool (Qred q) 0) with false.
  2:{ symmetry. apply not_true_is_false. intro E. apply Qeq_bool_eq in E.
      rewrite Hr in E. rewrite E in Hp. discriminate. }
  replace (Qle_bool (Qpow2 1024 - Qpow2 970) (Qabs (Qred q))) with true.
  2:{ symmetry. apply Qle_bool_iff. rewrite Hr, Qabs_pos by now apply Qlt_le_weak.
      eapply Qle_trans; [|exact H]. discriminate. }
  replace (Qle_bool 0 (Qred q)) with true; [reflexivity|].
  symmetry. apply Qle_bool_iff. rewrite Hr. now apply Qlt_le_weak.
Qed.

(** An integer up to [2^53] is a binary64 number. *)
Lemma round64_int z : (Z.abs z <= 2 ^ 53)%Z -> round64 (inject_Z z) = Fin (inject_Z z).
Proof.
  intro Hz. unfold round64. rewrite Qred_inject_Z.
  destruct (Z.eq_dec z 0) as [-> | Hnz]; [reflexivity|].
  replace (Qeq_bool (inject_Z z) 0) with false.
  2:{ symmetry. apply not_true_is_false. intro H. apply Qeq_bool_eq in H.
      unfold Qeq, inject_Z in H. simpl in H. lia. }
  replace (Qle_bool (Qpow2 1024 - Qpow2 970) (Qabs (inject_Z z))) with false.
  2:{ symmetry. apply not_true_is_false. intro E. apply Qle_bool_iff in E.
      assert (Hb : Qabs (inject_Z z) <= inject_Z (2 ^ 53)).
      { change (Qabs (inject_Z z)) with (inject_Z (Z.abs z)).
        unfold Qle, inject_Z. simpl. lia. }
      assert (Hc : inject_Z (2 ^ 53) < Qpow2 1024 - Qpow2 970) by reflexivity.
      apply (Qlt_irrefl (Qabs (inject_Z z))).
      eapply Qle_lt_trans; [exact Hb|]. eapply Qlt_le_trans; eassumption. }
  replace (Qabs (inject_Z z)) with (inject_Z (Z.abs z)) by reflexivity.
  rewrite Qlog2_Z by lia.
  pose proof (Z.log2_nonneg (Z.abs z)) as H0.
  rewrite Z.max_l by lia.
  f_equal.
  pose proof (round53_exact (inject_Z z) z (Qeq_refl _) Hz) as H53.
  unfold round53 in H53. rewrite Qred_inject_Z in H53.
  replace (Qeq_bool (inject_Z z) 0) with false in H53.
  2:{ symmetry. apply not_true_is_false. intro H. apply Qeq_bool_eq in H.
      unfold Qeq, inject_Z in H. simpl in H. lia. }
  replace (Qabs (inject_Z z)) with (inject_Z (Z.abs z)) in H53 by reflexivity.
  rewrite Qlog2_Z in H53 by lia. exact H53.
Qed.

Lemma of_int_exact z : (Z.abs z <= 2 ^ 53)%Z -> of_int z = Fin (inject_Z z).
Proof. apply round64_int. Qed.

Local Close Scope Q_scope.

Local Open Scope Q_scope.

(** ** Rounding is symmetric *)

Lemma Qrne_comp q q' : q == q' -> Qrne q = Qrne q'.
Proof.
  intro H. unfold Qrne. rewrite (Qfloor_comp _ _ H).
  assert (E : q - inject_Z (Qfloor q') == q' - inject_Z (Qfloor q')) by (rewrite H; reflexivity).
  now rewrite (Qcompare_comp _ _ E (1 # 2) (1 # 2) (Qeq_refl _)).
Qed.

Lemma Qfloor_unique q m : inject_Z m <= q -> q < inject_Z (m + 1) -> Qfloor q = m.
Proof.
  intros H1 H2.
  pose proof (Qfloor_le q) as F1. pose proof (Qlt_floor q) as F2.
  assert (A1 : inject_Z m < inject_Z (Qfloor q + 1)) by (eapply Qle_lt_trans; eassumption).
  assert (A2 : inject_Z (Qfloor q) < inject_Z (m + 1)) by (eapply Qle_lt_trans; eassumption).
  rewrite <- Zlt_Qlt in A1, A2. lia.
Qed.

Lemma Qrne_opp q : Qrne (- q) = (- Qrne q)%Z.
Proof.
  pose proof (Qfloor_le q) as F1. pose proof (Qlt_floor q) as F2.
  remember (Qfloor q) as n eqn:Hn.
  rewrite inject_Z_plus in F2. change (inject_Z 1) with 1 in F2.
  destruct (Qeq_dec q (inject_Z n)) as [E|NE].
  - rewrite (Qrne_Z q n E).
    apply Qrne_Z. rewrite E, inject_Z_opp. reflexivity.
  - assert (Hlt : inject_Z n < q).
    { apply Qle_lteq in F1. destruct F1 as [F1|F1]; [exact F1|]. symmetry in F1. contradiction. }
    assert (Hf : Qfloor (- q) = (- n - 1)%Z).
    { apply Qfloor_unique.
      - unfold Z.sub. rewrite inject_Z_plus, !inject_Z_opp.
        change (inject_Z 1) with 1. lra.
      - replace (- n - 1 + 1)%Z with (- n)%Z by lia. rewrite inject_Z_opp. lra. }
    unfold Qrne. rewrite Hf, <- Hn.
    assert (Hc : Qcompare (- q - inject_Z (- n - 1)) (1 # 2)
                 = CompOpp (Qcompare (q - inject_Z n) (1 # 2))).
    { unfold Z.sub. rewrite inject_Z_plus, !inject_Z_opp. change (inject_Z 1) with 1.
      destruct (Qcompare (q - inject_Z n) (1 # 2)) eqn:C; simpl.
      - apply Qeq_alt in C. apply (proj1 (Qeq_alt _ _)). lra.
      - apply Qlt_alt in C. apply (proj1 (Qgt_alt _ _)). lra.
      - apply Qgt_alt in C. apply (proj1 (Qlt_alt _ _)). lra. }
    rewrite Hc.
    destruct (Qcompare (q - inject_Z n) (1 # 2)); simpl; try lia.
    replace (- n - 1)%Z with (- (n + 1))%Z by lia.
    rewrite Z.even_opp, Z.even_add. simpl.
    destruct (Z.even n); simpl; lia.
Qed.

Lemma Qred_opp' q : Qred (- q) = - Qred q.
Proof. apply Qred_opp. Qed.

Lemma Qeq_bool_opp_0 q : Qeq_bool (- q) 0 = Qeq_bool q 0.
Proof.
  destruct (Qeq_bool q 0) eqn:E.
  - apply Qeq_bool_eq in E. apply Qeq_bool_iff. rewrite E. reflexivity.
  - apply not_true_is_false. intro H. apply Qeq_bool_eq in H.
    assert (q == 0) by lra. apply Qeq_bool_iff in H0. congruence.
Qed.

Lemma round64_opp q : round64 (- q) = fneg (round64 q).
Proof.
  unfold round64. rewrite Qred_opp, Qeq_bool_opp_0.
  set (r := Qred q).
  destruct (Qeq_bool r 0) eqn:Ez; [reflexivity|].
  assert (Hnz : ~ r == 0) by (intro H; apply Qeq_bool_iff in H; congruence).
  replace (Qabs (- r)) with (Qabs r).
  2:{ destruct r as [[|p|p] d]; reflexivity. }
  destruct (Qle_bool (Qpow2 1024 - Qpow2 970) (Qabs r)).
  - destruct (Qle_bool 0 r) eqn:E1, (Qle_bool 0 (- r)) eqn:E2; try reflexivity.
    + apply Qle_bool_iff in E1, E2. exfalso. apply Hnz. lra.
    + exfalso.
      assert (~ 0 <= r) by (intro H; apply Qle_bool_iff in H; congruence).
      assert (~ 0 <= - r) by (intro H'; apply Qle_bool_iff in H'; congruence).
      lra.
  - cbn [fneg]. f_equal.
    set (e := Z.max (Qlog2 (Qabs r) - 52) (- 1074)).
    rewrite (Qrne_comp (- r * Qpow2 (- e)) (- (r * Qpow2 (- e)))) by ring.
    rewrite Qrne_opp, inject_Z_opp, <- Qred_opp.
    apply Qred_complete. ring.
Qed.

Lemma Qopp_opp' q : - - q = q.
Proof. destruct q as [n d]. unfold Qopp. simpl. now rewrite Z.opp_involutive. Qed.

Lemma fneg_involutive x : fneg (fneg x) = x.
Proof. destruct x; simpl; try reflexivity. now rewrite Qopp_opp'. Qed.

Lemma signed_inf_opp a : signed_inf (- a) = fneg (signed_inf a).
Proof.
  unfold signed_inf.
  destruct (Qcompare a 0) eqn:C.
  - apply Qeq_alt in C. replace (Qcompare (- a) 0) with Eq; [reflexivity|].
    symmetry. apply (proj1 (Qeq_alt _ _)). lra.
  - apply Qlt_alt in C. replace (Qcompare (- a) 0) with Gt; [reflexivity|].
    symmetry. apply (proj1 (Qgt_alt _ _)). lra.
  - apply Qgt_alt in C. replace (Qcompare (- a) 0) with Lt; [reflexivity|].
    symmetry. apply (proj1 (Qlt_alt _ _)). lra.
Qed.

Lemma fadd_opp x y : fadd (fneg x) (fneg y) = fneg (fadd x y).
Proof.
  destruct x as [a| | |], y as [b| | |]; simpl; try reflexivity.
  rewrite <- round64_opp. apply round64_Qeq. ring.
Qed.

Lemma fadd_comm x y : fadd x y = fadd y x.
Proof.
  destruct x as [a| | |], y as [b| | |]; simpl; try reflexivity.
  apply round64_Qeq. ring.
Qed.

(** [x - y] is the negation of [y - x]. *)
Lemma fsub_antisym x y : fsub x y = fneg (fsub y x).
Proof.
  unfold fsub. rewrite <- fadd_opp, fneg_involutive. apply fadd_comm.
Qed.

Lemma fmul_opp_l x y : fmul (fneg x) y = fneg (fmul x y).
Proof.
  destruct x as [a| | |], y as [b| | |]; simpl; try reflexivity;
    rewrite <- ?signed_inf_opp, ?Qopp_opp'; try reflexivity.
  rewrite <- round64_opp. apply round64_Qeq. ring.
Qed.

Lemma frint_opp x : frint (fneg x) = fneg (frint x).
Proof.
  destruct x as [a| | |]; simpl; try reflexivity.
  rewrite Qrne_opp. f_equal.
Qed.

Lemma fdiv_opp_l x y : fdiv (fneg x) y = fneg (fdiv x y).
Proof.
  destruct x as [a| | |], y as [b| | |]; simpl; try reflexivity.
  - destruct (Qeq_bool b 0); [apply signed_inf_opp|].
    rewrite <- round64_opp. apply round64_Qeq. unfold Qdiv. ring.
  - destruct (Qle_bool 0 b); reflexivity.
  - destruct (Qle_bool 0 b); reflexivity.
Qed.

(** Rounding to two decimals commutes with negation. *)
Lemma fround2_opp x : fround2 (fneg x) = fneg (fround2 x).
Proof. unfold fround2. now rewrite fmul_opp_l, frint_opp, fdiv_opp_l. Qed.

Local Close Scope Q_scope.

Local Open Scope Q_scope.

(** ** Powers of two *)

Lemma Qpow2_Qpower e : Qpow2 e == 2 ^ e.
Proof.
  destruct e as [|p|p].
  - reflexivity.
  - unfold Qpow2. rewrite Zpower_Qpower by lia. reflexivity.
  - unfold Qpow2.
    change (2 ^ Z.neg p) with (/ (2 ^ Z.pos p)).
    rewrite <- (Zpower_Qpower 2 (Z.pos p)) by lia.
    assert (H : (0 < 2 ^ Z.pos p)%Z) by (apply Z.pow_pos_nonneg; lia).
    rewrite <- Pos2Z.inj_pow in *.
    unfold Qeq, Qinv, inject_Z. cbn [Qnum Qden]. lia.
Qed.

Lemma Qpow2_add a b : Qpow2 (a + b) == Qpow2 a * Qpow2 b.
Proof. rewrite !Qpow2_Qpower. apply Qpower_plus. discriminate. Qed.

Lemma Qpow2_le a b : (a <= b)%Z -> Qpow2 a <= Qpow2 b.
Proof.
  intro H. rewrite !Qpow2_Qpower. apply Qpower_le_compat_l; [exact H | discriminate].
Qed.

Lemma Qpow2_lt a b : (a < b)%Z -> Qpow2 a < Qpow2 b.
Proof.
  intro H. rewrite !Qpow2_Qpower. apply Qpower_lt_compat_l; [exact H | reflexivity].
Qed.

Lemma Qpow2_le_inv a b : Qpow2 a <= Qpow2 b -> (a <= b)%Z.
Proof.
  intro H. destruct (Z_le_gt_dec a b) as [Hle|Hgt]; [exact Hle|].
  exfalso. apply (Qlt_not_le _ _ (Qpow2_lt b a ltac:(lia))). exact H.
Qed.

Lemma Qpow2_inject e : (0 <= e)%Z -> Qpow2 e == inject_Z (2 ^ e).
Proof. intro H. now rewrite Qpow2_nonneg. Qed.

Lemma Qpow2_cancel e : Qpow2 e * Qpow2 (- e) == 1.
Proof. rewrite <- Qpow2_add. now replace (e + - e)%Z with 0%Z by lia. Qed.

(** ** The binary logarithm *)

Lemma Qlog2_low q : 0 < q -> Qpow2 (Qlog2 q) <= q.
Proof.
  intro Hq. unfold Qlog2.
  set (e := (Z.log2 (Qnum q) - Z.log2 (Z.pos (Qden q)))%Z).
  destruct (Qle_bool (Qpow2 e) q) eqn:E; [now apply Qle_bool_iff|].
  destruct q as [n d]. cbn [Qnum Qden] in *.
  assert (Hn : (0 < n)%Z) by (unfold Qlt in Hq; simpl in Hq; lia).
  pose proof (Z.log2_spec n Hn) as [Hn1 _].
  pose proof (Z.log2_spec (Z.pos d) (Pos2Z.is_pos d)) as [_ Hd2].
  pose proof (Z.log2_nonneg n) as Ha.
  pose proof (Z.log2_nonneg (Z.pos d)) as Hb.
  set (a := Z.log2 n) in *. set (b := Z.log2 (Z.pos d)) in *.
  replace (e - 1)%Z with (a + - (b + 1))%Z by (unfold e; lia).
  rewrite Qpow2_add.
  (* 2^a <= n and d < 2^(b+1) *)
  assert (H1 : Qpow2 a <= inject_Z n).
  { rewrite Qpow2_inject by lia. rewrite <- Zle_Qle. exact Hn1. }
  assert (H2 : inject_Z (Z.pos d) <= Qpow2 (b + 1)).
  { rewrite Qpow2_inject by lia. rewrite <- Zle_Qle.
    replace (b + 1)%Z with (Z.succ b) by lia. lia. }
  assert (Hdpos : 0 < inject_Z (Z.pos d)) by reflexivity.
  assert (Hq' : n # d == inject_Z n / inject_Z (Z.pos d)).
  { rewrite Qmake_Qdiv. reflexivity. }
  rewrite Hq'.
  apply Qle_shift_div_l; [exact Hdpos|].
  pose proof (Qpow2_pos a) as Pa.
  pose proof (Qpow2_pos (- (b + 1))) as Pb.
  pose proof (Qpow2_cancel (b + 1)) as Hc.
  apply Qle_trans with (Qpow2 a * (Qpow2 (- (b + 1)) * Qpow2 (b + 1))).
  - rewrite <- Qmult_assoc. apply Qmult_le_l; [exact Pa|].
    apply Qmult_le_l; [exact Pb|]. exact H2.
  - rewrite (Qmult_comm (Qpow2 (- (b + 1)))), Hc, Qmult_1_r. exact H1.
Qed.

(** ** Rounding to the nearest integer *)

Lemma Qrne_le x N : x <= inject_Z N -> (Qrne x <= N)%Z.
Proof.
  intro H. unfold Qrne.
  pose proof (Qfloor_le x) as Hf. pose proof (Qlt_floor x) as Hl.
  assert (HfN : (Qfloor x <= N)%Z).
  { rewrite Zle_Qle. eapply Qle_trans; eassumption. }
  destruct (Z.eq_dec (Qfloor x) N) as [Heq|Hne].
  - (* x = N exactly *)
    assert (Hx : x - inject_Z (Qfloor x) <= 0) by (rewrite Heq; lra).
    destruct (Qcompare (x - inject_Z (Qfloor x)) (1 # 2)) eqn:C.
    + apply Qeq_alt in C. lra.
    + lia.
    + apply Qgt_alt in C. lra.
  - destruct (Qcompare (x - inject_Z (Qfloor x)) (1 # 2));
      try destruct (Z.even (Qfloor x)); lia.
Qed.

Lemma Qrne_ge x N : inject_Z N <= x -> (N <= Qrne x)%Z.
Proof.
  intro H. unfold Qrne.
  assert (HfN : (N <= Qfloor x)%Z).
  { rewrite <- (Qfloor_Z N). now apply Qfloor_resp_le. }
  destruct (Qcompare (x - inject_Z (Qfloor x)) (1 # 2));
    try destruct (Z.even (Qfloor x)); lia.
Qed.

Lemma Qrne_abs_le x N : Qabs x <= inject_Z N -> (Z.abs (Qrne x) <= N)%Z.
Proof.
  intro H. apply Qabs_Qle_condition in H. destruct H as [H1 H2].
  apply Qrne_le in H2.
  assert (H3 : inject_Z (- N) <= x) by (rewrite inject_Z_opp; exact H1).
  apply Qrne_ge in H3. lia.
Qed.

(** ** Rounding to binary64: the finite case *)

Lemma Qabs_Qred q : Qabs (Qred q) == Qabs q.
Proof. now rewrite Qred_correct. Qed.

Lemma Qabs_pos_of_nonzero q : ~ q == 0 -> 0 < Qabs q.
Proof.
  intro H. destruct (Qlt_le_dec 0 (Qabs q)) as [Hp|Hn]; [exact Hp|].
  exfalso. apply H.
  apply Qabs_Qle_condition in Hn. destruct Hn as [H1 H2]. lra.
Qed.

(** Below the overflow threshold the result is [m * 2^e] for the nearest
    integer [m] of [q / 2^e], where [2^e] is the spacing of the binary64
    numbers around [q]. *)
Lemma round64_cases q :
  Qabs q < Qpow2 1024 - Qpow2 970 ->
  exists (y : Q) (e : Z),
    round64 q = Fin y /\
    y == inject_Z (Qrne (q * Qpow2 (- e))) * Qpow2 e /\
    (forall k, (- 1074 <= k)%Z -> Qabs q <= Qpow2 k -> (e <= k)%Z) /\
    (Qpow2 (- 1074) <= Qabs q -> Qpow2 e <= Qabs q).
Proof.
  intro Hthr. unfold round64.
  pose proof (Qred_correct q) as Hr.
  destruct (Qeq_bool (Qred q) 0) eqn:Ez.
  - apply Qeq_bool_eq in Ez. rewrite Hr in Ez.
    exists 0, (- 1074)%Z. split; [reflexivity|]. split; [|split].
    + rewrite (Qrne_comp (q * Qpow2 (- - 1074)) 0) by (rewrite Ez; ring).
      reflexivity.
    + intros k Hk _. exact Hk.
    + intro H. exfalso. rewrite Ez in H. revert H. apply Qlt_not_le. reflexivity.
  - assert (Hnz : ~ q == 0).
    { intro H. rewrite <- Hr in H. apply Qeq_bool_iff in H. congruence. }
    replace (Qle_bool (Qpow2 1024 - Qpow2 970) (Qabs (Qred q))) with false.
    2:{ symmetry. apply not_true_is_false. intro E. apply Qle_bool_iff in E.
        rewrite Qabs_Qred in E. apply (Qlt_irrefl (Qabs q)).
        eapply Qlt_le_trans; eassumption. }
    set (l := Qlog2 (Qabs (Qred q))).
    assert (Hl : Qpow2 l <= Qabs q).
    { rewrite <- Qabs_Qred. apply Qlog2_low. rewrite Qabs_Qred.
      now apply Qabs_pos_of_nonzero. }
    eexists. exists (Z.max (l - 52) (- 1074)).
    split; [reflexivity|]. split; [|split].
    + rewrite Qred_correct.
      rewrite (Qrne_comp (Qred q * Qpow2 (- Z.max (l - 52) (- 1074)))
                         (q * Qpow2 (- Z.max (l - 52) (- 1074))))
        by now rewrite Hr.
      reflexivity.
    + intros k Hk Hq.
      assert (l <= k)%Z by (apply Qpow2_le_inv; eapply Qle_trans; eassumption).
      lia.
    + intro Hsub.
      destruct (Z.max_spec (l - 52) (- 1074)) as [[_ ->] | [_ ->]].
      * exact Hsub.
      * eapply Qle_trans; [|exact Hl]. apply Qpow2_le. lia.
Qed.

Lemma below_threshold k q :
  (k <= 1023)%Z -> Qabs q <= Qpow2 k -> Qabs q < Qpow2 1024 - Qpow2 970.
Proof.
  intros Hk H. eapply Qle_lt_trans; [exact H|].
  eapply Qle_lt_trans; [apply (Qpow2_le k 1023 Hk)|]. reflexivity.
Qed.

(** A bound by a power of two is kept by the rounding. *)
Lemma round64_bound k q :
  (- 1074 <= k <= 1023)%Z -> Qabs q <= Qpow2 k ->
  exists y, round64 q = Fin y /\ Qabs y <= Qpow2 k.
Proof.
  intros [Hk1 Hk2] Hq.
  destruct (round64_cases q (below_threshold k q Hk2 Hq)) as (y & e & Hy & Ey & He & _).
  exists y. split; [exact Hy|].
  specialize (He k Hk1 Hq).
  pose proof (Qpow2_pos e) as Pe. pose proof (Qpow2_pos (- e)) as Pne.
  assert (Hx : Qabs (q * Qpow2 (- e)) <= inject_Z (2 ^ (k - e))).
  { rewrite <- Qpow2_inject by lia.
    replace (k - e)%Z with (k + - e)%Z by lia. rewrite Qpow2_add.
    rewrite Qabs_Qmult, (Qabs_pos (Qpow2 (- e))) by now apply Qlt_le_weak.
    apply Qmult_le_compat_r; [exact Hq | now apply Qlt_le_weak]. }
  apply Qrne_abs_le in Hx.
  rewrite Ey, Qabs_Qmult, (Qabs_pos (Qpow2 e)) by now apply Qlt_le_weak.
  change (Qabs (inject_Z ?z)) with (inject_Z (Z.abs z)).
  apply Qle_trans with (inject_Z (2 ^ (k - e)) * Qpow2 e).
  - apply Qmult_le_compat_r; [|now apply Qlt_le_weak]. now rewrite <- Zle_Qle.
  - rewrite <- Qpow2_inject by lia. rewrite <- Qpow2_add.
    replace (k - e + e)%Z with k by lia. apply Qle_refl.
Qed.

(** The sign is kept by the rounding. *)
Lemma round64_nonneg q y : 0 <= q -> round64 q = Fin y -> 0 <= y.
Proof.
  intros Hq Hy.
  destruct (Qlt_le_dec (Qabs q) (Qpow2 1024 - Qpow2 970)) as [Hthr|Hthr].
  - destruct (round64_cases q Hthr) as (y' & e & Hy' & Ey & _ & _).
    rewrite Hy in Hy'. injection Hy' as <-.
    pose proof (Qpow2_pos e) as Pe. pose proof (Qpow2_pos (- e)) as Pne.
    rewrite Ey. apply Qmult_le_0_compat; [|now apply Qlt_le_weak].
    change 0 with (inject_Z 0). rewrite <- Zle_Qle. apply Qrne_ge.
    change (inject_Z 0) with 0. apply Qmult_le_0_compat; [exact Hq|now apply Qlt_le_weak].
  - exfalso. unfold round64 in Hy.
    pose proof (Qred_correct q) as Hr.
    assert (Hp : 0 < Qabs q).
    { eapply Qlt_le_trans; [apply overflow_threshold_pos | exact Hthr]. }
    destruct (Qeq_bool (Qred q) 0) eqn:Ez.
    + apply Qeq_bool_eq in Ez. rewrite Hr in Ez. rewrite Ez in Hp. discriminate.
    + replace (Qle_bool (Qpow2 1024 - Qpow2 970) (Qabs (Qred q))) with true in Hy.
      * destruct (Qle_bool 0 (Qred q)); discriminate.
      * symmetry. apply Qle_bool_iff. now rewrite Qabs_Qred.
Qed.

Lemma round64_nonpos q y : q <= 0 -> round64 q = Fin y -> y <= 0.
Proof.
  intros Hq Hy.
  assert (H : round64 (- q) = Fin (- y)) by (rewrite round64_opp, Hy; reflexivity).
  apply round64_nonneg in H; lra.
Qed.

(** A number from the least positive binary64 number on is not rounded to
    zero. *)
Lemma round64_pos k q :
  (k <= 1023)%Z -> Qpow2 (- 1074) <= q -> q <= Qpow2 k ->
  exists y, round64 q = Fin y /\ 0 < y.
Proof.
  intros Hk Hlo Hhi.
  assert (Hq : 0 < q) by (eapply Qlt_le_trans; [apply (Qpow2_pos (- 1074)) | exact Hlo]).
  assert (Ha : Qabs q == q) by (apply Qabs_pos; lra).
  assert (Hthr : Qabs q < Qpow2 1024 - Qpow2 970).
  { apply (below_threshold k); [exact Hk | now rewrite Ha]. }
  destruct (round64_cases q Hthr) as (y & e & Hy & Ey & _ & He).
  exists y. split; [exact Hy|].
  rewrite Ha in He. specialize (He Hlo).
  pose proof (Qpow2_pos e) as Pe. pose proof (Qpow2_pos (- e)) as Pne.
  rewrite Ey. apply Qmult_lt_0_compat; [|exact Pe].
  change 0 with (inject_Z 0). rewrite <- Zlt_Qlt.
  assert (H1 : (1 <= Qrne (q * Qpow2 (- e)))%Z).
  { apply Qrne_ge. change (inject_Z 1) with 1.
    rewrite <- (Qpow2_cancel e).
    apply Qmult_le_compat_r; [exact He | now apply Qlt_le_weak]. }
  lia.
Qed.

(** ** Bounded floats *)

Lemma bounded_Fin k q : Qabs q <= Qpow2 k -> bounded k (Fin q).
Proof. intro H. exists q. auto. Qed.

Lemma bounded_unit y : 0 <= y -> y <= 1 -> bounded 0 (Fin y).
Proof. intros H0 H1. apply bounded_Fin. rewrite Qabs_pos by exact H0. exact H1. Qed.

Lemma bounded_pos k q : 0 <= q -> q <= Qpow2 k -> bounded k (Fin q).
Proof. intros H0 H1. apply bounded_Fin. now rewrite Qabs_pos. Qed.

Lemma fneg_bounded k x : bounded k x -> bounded k (fneg x).
Proof.
  intros (y & -> & Hy). exists (- y). split; [reflexivity|]. now rewrite Qabs_opp.
Qed.

Lemma fmul_bounded j k x y :
  (- 1074 <= j + k <= 1023)%Z -> bounded j x -> bounded k y ->
  bounded (j + k) (fmul x y).
Proof.
  intros Hjk (a & -> & Ha) (b & -> & Hb). cbn [fmul].
  apply round64_bound; [exact Hjk|].
  rewrite Qabs_Qmult, Qpow2_add.
  pose proof (Qabs_nonneg a). pose proof (Qabs_nonneg b).
  apply Qmult_le_compat_nonneg; split; assumption.
Qed.

Lemma fadd_bounded k x y :
  (- 1074 <= k + 1 <= 1023)%Z -> bounded k x -> bounded k y ->
  bounded (k + 1) (fadd x y).
Proof.
  intros Hk (a & -> & Ha) (b & -> & Hb). cbn [fadd].
  apply round64_bound; [exact Hk|].
  eapply Qle_trans; [apply Qabs_triangle|].
  rewrite Qpow2_add. change (Qpow2 1) with 2. lra.
Qed.

Lemma fsub_bounded k x y :
  (- 1074 <= k + 1 <= 1023)%Z -> bounded k x -> bounded k y ->
  bounded (k + 1) (fsub x y).
Proof. intros Hk Hx Hy. apply fadd_bounded; auto using fneg_bounded. Qed.

Lemma frint_bounded k x : (0 <= k)%Z -> bounded k x -> bounded k (frint x).
Proof.
  intros Hk (a & -> & Ha). cbn [frint]. apply bounded_Fin.
  change (Qabs (inject_Z ?z)) with (inject_Z (Z.abs z)).
  rewrite Qpow2_inject by exact Hk. rewrite <- Zle_Qle.
  apply Qrne_abs_le. now rewrite <- Qpow2_inject.
Qed.

Lemma fdiv_100_bounded k x :
  (- 1074 <= k <= 1023)%Z -> bounded k x -> bounded k (fdiv x (Fin 100)).
Proof.
  intros Hk (a & -> & Ha). cbn [fdiv]. change (Qeq_bool 100 0) with false. cbv iota.
  apply round64_bound; [exact Hk|].
  assert (E : a / 100 == a * (1 # 100)) by (field).
  rewrite E, Qabs_Qmult. change (Qabs (1 # 100)) with (1 # 100).
  pose proof (Qabs_nonneg a). lra.
Qed.

Lemma fround2_bounded k x :
  (0 <= k)%Z -> (k + 7 <= 1023)%Z -> bounded k x -> bounded (k + 7) (fround2 x).
Proof.
  intros Hk0 Hk Hx. unfold fround2.
  apply fdiv_100_bounded; [lia|]. apply frint_bounded; [lia|].
  apply fmul_bounded; [lia | exact Hx |].
  apply bounded_Fin. discriminate.
Qed.

(** ** Results that are not NaN *)

Lemma round64_not_nan q : round64 q <> NaN.
Proof.
  unfold round64. destruct (Qeq_bool (Qred q) 0); [discriminate|].
  destruct (Qle_bool (Qpow2 1024 - Qpow2 970) (Qabs (Qred q)));
    [destruct (Qle_bool 0 (Qred q))|]; discriminate.
Qed.

Lemma fneg_not_nan x : x <> NaN -> fneg x <> NaN.
Proof. destruct x; simpl; congruence. Qed.

Lemma fadd_fin_not_nan a y : y <> NaN -> fadd (Fin a) y <> NaN.
Proof.
  destruct y; cbn [fadd]; try congruence. intros _. apply round64_not_nan.
Qed.

Lemma fadd_not_nan_fin x b : x <> NaN -> fadd x (Fin b) <> NaN.
Proof. rewrite fadd_comm. apply fadd_fin_not_nan. Qed.

Lemma fsub_not_nan_fin x b : x <> NaN -> fsub x (Fin b) <> NaN.
Proof. unfold fsub. cbn [fneg]. apply fadd_not_nan_fin. Qed.

Lemma signed_inf_not_nan a : ~ a == 0 -> signed_inf a <> NaN.
Proof.
  intro H. unfold signed_inf. destruct (Qcompare a 0) eqn:C; try discriminate.
  apply Qeq_alt in C. contradiction.
Qed.

Lemma fmul_pos_not_nan x b : x <> NaN -> 0 < b -> fmul x (Fin b) <> NaN.
Proof.
  intros Hx Hb. destruct x; cbn [fmul]; try congruence.
  - apply round64_not_nan.
  - apply signed_inf_not_nan. lra.
  - apply signed_inf_not_nan. lra.
Qed.

Lemma fdiv_pos_not_nan x b : x <> NaN -> 0 < b -> fdiv x (Fin b) <> NaN.
Proof.
  intros Hx Hb.
  assert (Hz : Qeq_bool b 0 = false).
  { apply not_true_is_false. intro H. apply Qeq_bool_eq in H. lra. }
  assert (Hp : Qle_bool 0 b = true) by (apply Qle_bool_iff; lra).
  destruct x; cbn [fdiv]; rewrite ?Hz, ?Hp; try congruence.
  apply round64_not_nan.
Qed.

Local Close Scope Q_scope.

(** ** The monad and the scalar operations *)

Lemma bind_ret {A B} (a : A) (f : A -> M B) : bind (ret a) f = f a.
Proof. unfold bind, ret. destruct (f a) as [out r]. reflexivity. Qed.

Definition is_float (a : scalar) : bool :=
  match a with PyFloat _ | NpFloat _ => true | _ => false end.

(** The scalar of the kind of the result of an operation on [a] and [b]. *)
Definition join (a b : scalar) (x : float64) : scalar :=
  if is_np a || is_np b then NpFloat x else PyFloat x.

Lemma value_join a b x : value (join a b x) = x.
Proof. unfold join. destruct (is_np a || is_np b); reflexivity. Qed.

Lemma is_float_join a b x : is_float (join a b x) = true.
Proof. unfold join. destruct (is_np a || is_np b); reflexivity. Qed.

Lemma in_int64_small z : (Z.abs z <= 2 ^ 53)%Z -> in_int64 z = true.
Proof. intro H. unfold in_int64. lia. Qed.

Lemma holds_value a q : holds a q -> value a = Fin q.
Proof.
  destruct a as [z|[x| | |]|z|[x| | |]]; simpl; try tauto.
  - intros [Hz <-]. now apply of_int_exact.
  - now intros ->.
  - intros [Hz <-]. now apply of_int_exact.
  - now intros ->.
Qed.

Lemma holds_float_holds a q : holds_float a q -> holds a q.
Proof. destruct a as [z|[x| | |]|z|[x| | |]]; simpl; tauto. Qed.

Lemma holds_float_is_float a q : holds_float a q -> is_float a = true.
Proof. destruct a as [z|[x| | |]|z|[x| | |]]; simpl; tauto. Qed.

Lemma np_float_holds a q : holds a q -> np_float a = ret (Fin q).
Proof.
  intro H. pose proof (holds_value a q H) as Hv.
  destruct a as [z|x|z|x]; simpl in *; try (now rewrite Hv).
  destruct H as [Hz _]. now rewrite in_int64_small, Hv.
Qed.

Lemma py_float_holds a q : holds a q -> py_float a = ret (Fin q).
Proof.
  intro H. pose proof (holds_value a q H) as Hv.
  destruct a as [z|x|z|x]; simpl in *; now rewrite Hv.
Qed.

Lemma np_float_float a : is_float a = true -> np_float a = ret (value a).
Proof. destruct a; simpl; try discriminate; reflexivity. Qed.

Lemma py_float_float a : is_float a = true -> py_float a = ret (value a).
Proof. destruct a; simpl; try discriminate; reflexivity. Qed.

(** An operation on two floats. *)
Lemma arith_floats fz ff a b :
  is_float a = true -> is_float b = true ->
  arith fz ff a b = ret (join a b (ff (value a) (value b))).
Proof.
  destruct a as [x|x|x|x], b as [y|y|y|y]; simpl; try discriminate; reflexivity.
Qed.

Lemma float_arith_holds ff a b x y :
  holds a x -> holds b y -> is_int a && is_int b = false ->
  float_arith ff a b = ret (join a b (ff (Fin x) (Fin y))).
Proof.
  intros Ha Hb Hi. unfold float_arith, join. rewrite Hi.
  rewrite (np_float_holds a x Ha), (np_float_holds b y Hb),
          (py_float_holds a x Ha), (py_float_holds b y Hb), !bind_ret.
  destruct (is_np a || is_np b); reflexivity.
Qed.

Lemma float_truediv_holds a b x y :
  holds a x -> holds b y -> Qeq_bool y 0 = false ->
  float_truediv a b = ret (join a b (fdiv (Fin x) (Fin y))).
Proof.
  intros Ha Hb Hz. unfold float_truediv, join.
  rewrite (np_float_holds a x Ha), (np_float_holds b y Hb),
          (py_float_holds a x Ha), (py_float_holds b y Hb), !bind_ret.
  cbn [is_zero]. rewrite Hz.
  destruct (is_np a || is_np b); reflexivity.
Qed.

(** An operation on a float and a number. *)
Lemma arith_float_l fz ff a b q :
  is_float a = true -> holds b q ->
  arith fz ff a b = ret (join a b (ff (value a) (Fin q))).
Proof.
  intros Ha Hb.
  assert (E : arith fz ff a b = float_arith ff a b)
    by (destruct a; try discriminate; reflexivity).
  rewrite E. unfold float_arith, join.
  replace (is_int a) with false by (destruct a; try discriminate; reflexivity).
  cbn [andb].
  rewrite (np_float_float a Ha), (py_float_float a Ha),
          (np_float_holds b q Hb), (py_float_holds b q Hb), !bind_ret.
  destruct (is_np a || is_np b); reflexivity.
Qed.

Local Open Scope Q_scope.

Lemma Qabs_quotient_bound x y :
  (Z.abs x <= 2 ^ 53)%Z -> y <> 0%Z ->
  Qabs (inject_Z x / inject_Z y) <= inject_Z (2 ^ 53).
Proof.
  intros Hx Hy.
  assert (E : Qabs (inject_Z x / inject_Z y) == inject_Z (Z.abs x) / inject_Z (Z.abs y)).
  { unfold Qdiv. rewrite Qabs_Qmult.
    assert (Qabs (/ inject_Z y) == / inject_Z (Z.abs y)).
    { destruct y as [|p|p]; [congruence| |]; reflexivity. }
    rewrite H. reflexivity. }
  rewrite E.
  assert (Hp : 0 < inject_Z (Z.abs y)).
  { rewrite <- (Zlt_Qlt 0). lia. }
  apply Qle_shift_div_r; [exact Hp|].
  rewrite <- inject_Z_mult, <- Zle_Qle. nia.
Qed.

(** The quotient of two numbers, of which the second is not zero. *)
Lemma truediv_holds a b x y :
  holds a x -> holds b y -> ~ y == 0 ->
  truediv a b = ret (join a b (fdiv (Fin x) (Fin y))).
Proof.
  intros Ha Hb Hy.
  assert (Hz : Qeq_bool y 0 = false).
  { apply not_true_is_false. intro H. now apply Qeq_bool_eq in H. }
  destruct a as [za|xa|za|xa], b as [zb|xb|zb|xb];
    try (apply float_truediv_holds; assumption).
  (* two Python ints *)
  destruct Ha as [Hza <-], Hb as [Hzb <-].
  assert (Hnz : zb <> 0%Z) by (intros ->; apply Hy; reflexivity).
  unfold truediv. replace (zb =? 0)%Z with false by lia.
  unfold join. cbn [is_np orb fdiv]. rewrite Hz.
  destruct (round64_finite (inject_Z za / inject_Z zb)) as [q ->]; [|reflexivity].
  eapply Qle_lt_trans; [now apply Qabs_quotient_bound|]. reflexivity.
Qed.

Local Close Scope Q_scope.

Lemma join_np_l a b x : is_np a = true -> join a b x = NpFloat x.
Proof. intro H. unfold join. now rewrite H. Qed.

Lemma join_np_r a b x : is_np b = true -> join a b x = NpFloat x.
Proof. intro H. unfold join. rewrite H. now rewrite orb_true_r. Qed.

Lemma value_neg a : is_float a = true -> value (neg a) = fneg (value a).
Proof. destruct a; simpl; try discriminate; reflexivity. Qed.

Lemma is_float_neg a : is_float (neg a) = is_float a.
Proof. destruct a; reflexivity. Qed.

Lemma is_np_neg a : is_np (neg a) = is_np a.
Proof. destruct a; reflexivity. Qed.

(** With a numpy float the division raises nothing, whatever the divisor. *)
Lemma truediv_np_l x b :
  is_float b = true -> truediv (NpFloat x) b = ret (NpFloat (fdiv x (value b))).
Proof. destruct b; simpl; try discriminate; reflexivity. Qed.

(** A float divided by a number that is not zero. *)
Lemma truediv_float_l a b y :
  is_float a = true -> holds b y -> ~ (y == 0)%Q ->
  truediv a b = ret (join a b (fdiv (value a) (Fin y))).
Proof.
  intros Ha Hb Hy.
  assert (Hz : Qeq_bool y 0 = false).
  { apply not_true_is_false. intro H. now apply Qeq_bool_eq in H. }
  assert (E : truediv a b = float_truediv a b)
    by (destruct a; try discriminate; reflexivity).
  rewrite E. unfold float_truediv, join.
  rewrite (np_float_float a Ha), (py_float_float a Ha),
          (np_float_holds b y Hb), (py_float_holds b y Hb), !bind_ret.
  cbn [is_zero]. rewrite Hz.
  destruct (is_np a || is_np b); reflexivity.
Qed.

Lemma holds_2 : holds (PyInt 2) 2.
Proof. split; [lia | reflexivity]. Qed.

Lemma holds_100 : holds (PyInt 100) 100.
Proof. split; [lia | reflexivity]. Qed.

Section Pricer.

Context (L : libm).

(** ** The powers *)

Lemma pow_2_returns (v : scalar) :
  is_float v = true -> square_in_range v ->
  exists v2, pow_2 L v = ret v2 /\ is_float v2 = true /\ is_np v2 = is_np v.
Proof.
  intros Hf Hr. destruct v as [z|x|z|x]; try discriminate.
  - destruct Hr as [Hn | (q & Hq & Hb)]; [discriminate|].
    simpl in Hq. subst x. unfold pow_2, float_pow_2.
    destruct (Qeq_bool q 0); [rewrite bind_ret; eauto|].
    destruct (Qeq_bool (Qabs q) 1); [rewrite bind_ret; eauto|].
    destruct (pow64_square_finite L (Qabs q)) as [y ->].
    + rewrite Qabs_pos by apply Qabs_nonneg. exact Hb.
    + rewrite bind_ret. eauto.
  - simpl. eauto.
Qed.

Lemma pow_half_returns (t : scalar) (tau : Q) :
  holds_float t tau -> (0 <= tau)%Q ->
  exists st, pow_half L t = ret st /\ is_float st = true /\ is_np st = is_np t.
Proof.
  intros Ht Hp. destruct t as [z|[x| | |]|z|[x| | |]]; simpl in Ht; try tauto; subst x.
  - unfold pow_half. cbn [py_float value]. rewrite bind_ret. unfold float_pow_half.
    destruct (Qeq_bool tau 0) eqn:Ez; [rewrite bind_ret; eauto|].
    assert (Hnz : ~ (tau == 0)%Q) by (intro H; apply Qeq_bool_iff in H; congruence).
    assert (Hpos : (0 < tau)%Q).
    { apply Qle_lteq in Hp. destruct Hp as [Hp|Hp]; [exact Hp|].
      exfalso. apply Hnz. now symmetry. }
    replace (Qle_bool tau 0) with false.
    2:{ symmetry. apply not_true_is_false. intro H. apply Qle_bool_iff in H. lra. }
    destruct (Qeq_bool tau 1); [rewrite bind_ret; eauto|].
    destruct (pow64_root_bounds L tau Hpos) as (y & -> & _).
    rewrite bind_ret. eauto.
  - simpl. eauto.
Qed.

(** ** The pricer on valid parameters *)

(** The two intermediate values of the pricer. *)
Lemma BlackScholes_d1_d2 (S K r t v v2 st : scalar) (s k rho tau sigma : Q)
    (type : string) :
  holds S s -> holds K k -> holds_float r rho -> holds_float t tau ->
  holds_float v sigma -> ~ (k == 0)%Q ->
  pow_2 L v = ret v2 -> is_float v2 = true ->
  pow_half L t = ret st -> is_float st = true ->
  BlackScholes L S K r t v type =
  try_block L S K r t
    (NpFloat (d1_spec L (Fin s) (Fin k) (Fin rho) (Fin tau) (Fin sigma)
                      (value v2) (value st)))
    (NpFloat (d2_spec L (Fin s) (Fin k) (Fin rho) (Fin tau) (Fin sigma)
                      (value v2) (value st)))
    type.
Proof.
  intros HS HK Hr Ht Hv Hk Hv2 Fv2 Hst Fst.
  pose proof (holds_float_is_float r rho Hr) as Fr.
  pose proof (holds_float_is_float t tau Ht) as Ft.
  pose proof (holds_float_is_float v sigma Hv) as Fv.
  pose proof (holds_value r rho (holds_float_holds r rho Hr)) as Vr.
  pose proof (holds_value t tau (holds_float_holds t tau Ht)) as Vt.
  pose proof (holds_value v sigma (holds_float_holds v sigma Hv)) as Vv.
  unfold BlackScholes.
  rewrite (truediv_holds S K s k HS HK Hk), bind_ret.
  unfold np_log. rewrite np_float_float by apply is_float_join.
  rewrite !bind_ret, value_join.
  rewrite Hv2, bind_ret.
  rewrite (truediv_float_l v2 (PyInt 2) 2 Fv2 holds_2) by discriminate.
  rewrite bind_ret.
  unfold add, mul, sub.
  rewrite (arith_floats _ _ r) by (auto using is_float_join).
  rewrite bind_ret, value_join, Vr.
  rewrite (arith_floats _ _ _ t) by (auto using is_float_join).
  rewrite bind_ret, value_join, Vt.
  rewrite (arith_floats _ _ (NpFloat _)) by (auto using is_float_join).
  rewrite bind_ret, join_np_l by reflexivity. cbn [value]. rewrite value_join.
  rewrite Hst, !bind_ret.
  rewrite (arith_floats _ _ v st) by assumption.
  rewrite !bind_ret, Vv.
  rewrite truediv_np_l by apply is_float_join.
  rewrite !bind_ret, value_join.
  rewrite (arith_floats _ _ v st) by assumption.
  rewrite bind_ret, Vv.
  rewrite (arith_floats _ _ (NpFloat _)) by (auto using is_float_join).
  rewrite bind_ret, join_np_l by reflexivity. cbn [value]. rewrite value_join.
  reflexivity.
Qed.

(** The [try] statement on a known option type: the price, nothing
    printed. *)
Lemma try_block_price (S K r t : scalar) (s k rho tau : Q) (d1 d2 : float64)
    (type : string) :
  holds S s -> holds K k -> holds_float r rho -> holds_float t tau ->
  type = "Call"%string \/ type = "Put"%string ->
  try_block L S K r t (NpFloat d1) (NpFloat d2) type =
  ([], Ok (VNum (NpFloat
     (if String.eqb type "Call" then
        fround2 (fsub (fmul (cdf64 L d1) (Fin s))
                      (fmul (fmul (cdf64 L d2) (Fin k))
                            (exp64 L (fmul (fneg (Fin rho)) (Fin tau)))))
      else
        fround2 (fsub (fmul (fmul (cdf64 L (fneg d2)) (Fin k))
                            (exp64 L (fmul (fneg (Fin rho)) (Fin tau))))
                      (fmul (cdf64 L (fneg d1)) (Fin s))))))).
Proof.
  intros HS HK Hr Ht Hty.
  pose proof (holds_float_is_float r rho Hr) as Fr.
  pose proof (holds_float_is_float t tau Ht) as Ft.
  pose proof (holds_value r rho (holds_float_holds r rho Hr)) as Vr.
  pose proof (holds_value t tau (holds_float_holds t tau Ht)) as Vt.
  assert (He : mul (neg r) t = ret (join (neg r) t (fmul (fneg (Fin rho)) (Fin tau)))).
  { unfold mul. rewrite arith_floats by (rewrite ?is_float_neg; assumption).
    now rewrite value_neg, Vr, Vt by assumption. }
  unfold try_block.
  destruct Hty as [-> | ->]; simpl String.eqb; cbv iota;
    unfold norm_cdf, np_exp, mul, sub; cbn [np_float value neg];
    rewrite ?bind_ret.
  - rewrite (arith_float_l _ _ (NpFloat _) S s) by (auto; reflexivity).
    rewrite !bind_ret, join_np_l by reflexivity. cbn [value].
    rewrite (arith_float_l _ _ (NpFloat _) K k) by (auto; reflexivity).
    rewrite !bind_ret, join_np_l by reflexivity. cbn [value].
    fold (mul (neg r) t). rewrite He, bind_ret.
    rewrite np_float_float by apply is_float_join.
    rewrite !bind_ret, value_join. reflexivity.
  - rewrite (arith_float_l _ _ (NpFloat _) K k) by (auto; reflexivity).
    rewrite !bind_ret, join_np_l by reflexivity. cbn [value].
    fold (mul (neg r) t). rewrite He, bind_ret.
    rewrite np_float_float by apply is_float_join.
    rewrite !bind_ret, value_join.
    cbn [arith float_arith is_int is_np andb orb np_float value].
    rewrite !bind_ret.
    rewrite (arith_float_l _ _ (NpFloat _) S s) by (auto; reflexivity).
    rewrite !bind_ret, join_np_l by reflexivity. cbn [value].
    reflexivity.
Qed.

(** The [try] statement on another option type: the message, and None. *)
Lemma try_block_unknown (S K r t d1 d2 : scalar) (type : string) :
  type <> "Call"%string -> type <> "Put"%string ->
  try_block L S K r t d1 d2 type
  = (["Please confirm all option parameters above"%string], Ok VNone).
Proof.
  intros Hc Hp. unfold try_block.
  apply String.eqb_neq in Hc, Hp. rewrite Hc, Hp. reflexivity.
Qed.

End Pricer.

(** ** The sample library functions *)

Lemma Sample_pow_square_finite (q : Q) :
  (Qabs q <= Qpow2 511)%Q -> exists y : Q, Sample.pow (Fin q) (Fin 2) = Fin y.
Proof.
  intro H. unfold Sample.pow. change (Qeq_bool 2 2) with true. cbv iota.
  apply round64_finite. rewrite Qabs_Qmult.
  pose proof (Qabs_nonneg q) as H0.
  apply Qle_lt_trans with (Qpow2 511 * Qpow2 511)%Q; [|reflexivity].
  apply Qmult_le_compat_nonneg; split; assumption.
Qed.

Lemma Sample_pow_square_overflow (q : Q) :
  (Qpow2 512 <= Qabs q)%Q -> Sample.pow (Fin q) (Fin 2) = PInf.
Proof.
  intro H. unfold Sample.pow. change (Qeq_bool 2 2) with true. cbv iota.
  apply round64_overflow.
  assert (E : (q * q == Qabs q * Qabs q)%Q).
  { rewrite <- Qabs_Qmult. symmetry. apply Qabs_pos.
    destruct q as [[|p|p] d]; unfold Qle, Qmult; simpl; lia. }
  rewrite E.
  apply Qle_trans with (Qpow2 512 * Qpow2 512)%Q; [discriminate|].
  apply Qmult_le_compat_nonneg; split; try assumption; discriminate.
Qed.

Lemma Sample_pow_root_bounds (q : Q) :
  (0 < q)%Q ->
  exists y : Q, Sample.pow (Fin q) (Fin (1 # 2)) = Fin y /\
                (q <= 1 -> q <= y /\ y <= 1)%Q /\
                (1 <= q -> 1 <= y /\ y <= q)%Q.
Proof.
  intros Hq. unfold Sample.pow. change (Qeq_bool (1 # 2) 2) with false.
  eexists. split; [reflexivity|].
  rewrite Qred_correct.
  assert (E : ((1 + q) / 2 == (1 # 2) + (1 # 2) * q)%Q) by field.
  rewrite E. split; intro H; split; lra.
Qed.

Lemma Sample_log_finite (q : Q) :
  (0 < q)%Q -> exists y : Q, Sample.log (Fin q) = Fin y.
Proof.
  intro Hq. unfold Sample.log.
  replace (Qle_bool q 0) with false; [eauto|].
  symmetry. apply not_true_is_false. intro H. apply Qle_bool_iff in H. lra.
Qed.

Lemma Sample_exp_range (q : Q) :
  (q <= 0)%Q -> exists y : Q, Sample.exp (Fin q) = Fin y /\ (0 <= y)%Q /\ (y <= 1)%Q.
Proof.
  intro Hq. unfold Sample.exp.
  destruct (Qle_bool q (- 1)) eqn:E.
  - exists 0%Q. repeat split; discriminate.
  - eexists. split; [reflexivity|]. rewrite Qred_correct.
    assert (~ (q <= - 1)%Q).
    { intro H. apply Qle_bool_iff in H. congruence. }
    split; lra.
Qed.

Lemma Sample_cdf_range (x : float64) :
  x <> NaN -> exists y : Q, Sample.cdf x = Fin y /\ (0 <= y)%Q /\ (y <= 1)%Q.
Proof.
  intro Hx. destruct x as [q| | |]; cbn [Sample.cdf].
  - destruct (Qle_bool q (- 2)) eqn:E1.
    + exists 0%Q. repeat split; discriminate.
    + destruct (Qle_bool 2 q) eqn:E2.
      * exists 1%Q. repeat split; discriminate.
      * eexists. split; [reflexivity|]. rewrite Qred_correct.
        assert (Ha : ~ (q <= - 2)%Q) by (intro H; apply Qle_bool_iff in H; congruence).
        assert (Hb : ~ (2 <= q)%Q) by (intro H; apply Qle_bool_iff in H; congruence).
        assert (E : (q / 4 == (1 # 4) * q)%Q) by field.
        rewrite E. split; lra.
  - exists 1%Q. repeat split; discriminate.
  - exists 0%Q. repeat split; discriminate.
  - congruence.
Qed.

Definition sample_libm : libm :=
  {| log64 := Sample.log;
     exp64 := Sample.exp;
     cdf64 := Sample.cdf;
     pow64 := Sample.pow;
     np_power := Sample.pow;
     pow64_square_finite := Sample_pow_square_finite;
     pow64_square_overflow := Sample_pow_square_overflow;
     pow64_root_bounds := Sample_pow_root_bounds;
     log64_finite := Sample_log_finite;
     log64_one := eq_refl;
     exp64_range := Sample_exp_range;
     cdf64_range := Sample_cdf_range;
     cdf64_nan := eq_refl |}.

Lemma square_in_range_quarter : square_in_range (PyFloat (Fin (1 # 4))).
Proof. right. exists (1 # 4)%Q. split; [reflexivity | discriminate]. Qed.

Section PricerTheorems.

Context (L : libm).

(** The pricer on a known option type, with a divisor [K] that is not
    zero, a time that is not negative and a volatility whose square does
    not overflow. *)
Lemma BlackScholes_price (S K r t v : scalar) (s k rho tau sigma : Q)
    (type : string) :
  holds S s -> holds K k -> holds_float r rho -> holds_float t tau ->
  holds_float v sigma ->
  ~ (k == 0)%Q -> (0 <= tau)%Q -> square_in_range v ->
  type = "Call"%string \/ type = "Put"%string ->
  exists v2 st : scalar,
    pow_2 L v = ret v2 /\ pow_half L t = ret st /\
    BlackScholes L S K r t v type
    = ([], Ok (VNum (NpFloat (price_spec L type (Fin s) (Fin k) (Fin rho) (Fin tau)
                                         (Fin sigma) (value v2) (value st))))).
Proof.
  intros HS HK Hr Ht Hv Hk Htau Hsq Hty.
  destruct (pow_2_returns L v (holds_float_is_float v sigma Hv) Hsq)
    as (v2 & Hv2 & Fv2 & _).
  destruct (pow_half_returns L t tau Ht Htau) as (st & Hst & Fst & _).
  exists v2, st. split; [exact Hv2|]. split; [exact Hst|].
  rewrite (BlackScholes_d1_d2 L S K r t v v2 st s k rho tau sigma) by assumption.
  rewrite (try_block_price L S K r t s k rho tau) by assumption.
  unfold price_spec, call_price_spec, put_price_spec.
  destruct (String.eqb type "Call"); reflexivity.
Qed.

(** C1 (amended). On valid parameters (S > 0, K > 0, r >= 0, t > 0, v > 0;
    S and K floats or integers that binary64 holds exactly; r, t and v
    floats) with a volatility whose square does not overflow, the pricer
    returns, without printing and without raising, the Black-Scholes price
    of the specification evaluated in binary64 arithmetic and rounded to
    two decimals: [Phi(d1)*S - Phi(d2)*K*exp(-r*t)] for "Call" and
    [Phi(-d2)*K*exp(-r*t) - Phi(-d1)*S] for "Put". *)
Theorem BlackScholes_returns_spec_price
    (S K r t v : scalar) (s k rho tau sigma : Q) :
  holds S s -> holds K k -> holds_float r rho -> holds_float t tau ->
  holds_float v sigma ->
  (0 < s)%Q -> (0 < k)%Q -> (0 <= rho)%Q -> (0 < tau)%Q -> (0 < sigma)%Q ->
  square_in_range v ->
  exists v2 st : scalar,
    pow_2 L v = ret v2 /\ pow_half L t = ret st /\
    BlackScholes L S K r t v "Call"
    = ([], Ok (VNum (NpFloat (call_price_spec L (Fin s) (Fin k) (Fin rho) (Fin tau)
                                              (Fin sigma) (value v2) (value st))))) /\
    BlackScholes L S K r t v "Put"
    = ([], Ok (VNum (NpFloat (put_price_spec L (Fin s) (Fin k) (Fin rho) (Fin tau)
                                             (Fin sigma) (value v2) (value st))))).
Proof.
  intros HS HK Hr Ht Hv Hs Hk Hrho Htau Hsigma Hsq.
  assert (Hk0 : ~ (k == 0)%Q) by lra.
  assert (Ht0 : (0 <= tau)%Q) by lra.
  destruct (BlackScholes_price S K r t v s k rho tau sigma "Call")
    as (v2 & st & Hv2 & Hst & Hc); auto.
  destruct (BlackScholes_price S K r t v s k rho tau sigma "Put")
    as (v2' & st' & Hv2' & Hst' & Hp); auto.
  rewrite Hv2 in Hv2'. injection Hv2' as <-.
  rewrite Hst in Hst'. injection Hst' as <-.
  exists v2, st. auto.
Qed.

(** The pricer on a Python volatility from [2^512] on: [v ** 2] raises. *)
Lemma BlackScholes_square_overflow (S K r t : scalar) (s k q : Q) (type : string) :
  holds S s -> holds K k -> ~ (k == 0)%Q -> (Qpow2 512 <= q)%Q ->
  BlackScholes L S K r t (PyFloat (Fin q)) type = ([], Raise OverflowError).
Proof.
  intros HS HK Hk Hq. unfold BlackScholes.
  rewrite (truediv_holds S K s k HS HK Hk), bind_ret.
  unfold np_log. rewrite np_float_float by apply is_float_join.
  rewrite !bind_ret.
  assert (Hpos : (0 < q)%Q) by (eapply Qlt_le_trans; [apply (Qpow2_pos 512) | exact Hq]).
  assert (Habs : (Qabs q == q)%Q) by (apply Qabs_pos; lra).
  unfold pow_2, float_pow_2.
  replace (Qeq_bool q 0) with false.
  2:{ symmetry. apply not_true_is_false. intro H. apply Qeq_bool_eq in H. lra. }
  replace (Qeq_bool (Qabs q) 1) with false.
  2:{ symmetry. apply not_true_is_false. intro H. apply Qeq_bool_eq in H.
      rewrite Habs in H. rewrite H in Hq. revert Hq. apply Qlt_not_le. reflexivity. }
  rewrite (pow64_square_overflow L (Qabs q)).
  - reflexivity.
  - rewrite Qabs_pos by apply Qabs_nonneg. now rewrite Habs.
Qed.

(** The pricer on an option type other than "Call" and "Put". *)
Lemma BlackScholes_unknown_type (S K r t v : scalar) (s k rho tau sigma : Q)
    (type : string) :
  holds S s -> holds K k -> holds_float r rho -> holds_float t tau ->
  holds_float v sigma ->
  ~ (k == 0)%Q -> (0 <= tau)%Q -> square_in_range v ->
  type <> "Call"%string -> type <> "Put"%string ->
  BlackScholes L S K r t v type
    = (["Please confirm all option parameters above"%string], Ok VNone).
Proof.
  intros HS HK Hr Ht Hv Hk Htau Hsq Hc Hp.
  destruct (pow_2_returns L v (holds_float_is_float v sigma Hv) Hsq)
    as (v2 & Hv2 & Fv2 & _).
  destruct (pow_half_returns L t tau Ht Htau) as (st & Hst & Fst & _).
  rewrite (BlackScholes_d1_d2 L S K r t v v2 st s k rho tau sigma) by auto.
  now apply try_block_unknown.
Qed.

(** C10 (amended). On numerically valid parameters with a volatility whose
    square does not overflow, and an option type other than "Call" and
    "Put", no branch binds [Price]; the error of [return Price] is caught
    by the bare [except], the message is printed and the function returns
    None: no price and no exception reach the caller. *)
Theorem BlackScholes_unknown_type_returns_None
    (S K r t v : scalar) (s k rho tau sigma : Q) (type : string) :
  holds S s -> holds K k -> holds_float r rho -> holds_float t tau ->
  holds_float v sigma ->
  (0 < s)%Q -> (0 < k)%Q -> (0 < tau)%Q -> (0 < sigma)%Q ->
  square_in_range v ->
  type <> "Call"%string -> type <> "Put"%string ->
  BlackScholes L S K r t v type
    = (["Please confirm all option parameters above"%string], Ok VNone).
Proof.
  intros HS HK Hr Ht Hv Hs Hk Htau Hsigma Hsq Hc Hp.
  apply (BlackScholes_unknown_type S K r t v s k rho tau sigma); auto; lra.
Qed.

End PricerTheorems.

Lemma BlackScholes_returns_spec_price_witness :
  exists v2 st : scalar,
    pow_2 sample_libm (PyFloat (Fin (1 # 4))) = ret v2 /\
    pow_half sample_libm (PyFloat (Fin (1 # 8))) = ret st /\
    BlackScholes sample_libm (PyInt 100) (PyInt 95) (PyFloat (Fin (1 # 32)))
                 (PyFloat (Fin (1 # 8))) (PyFloat (Fin (1 # 4))) "Call"
    = ([], Ok (VNum (NpFloat (call_price_spec sample_libm (Fin 100) (Fin 95)
                                (Fin (1 # 32)) (Fin (1 # 8)) (Fin (1 # 4))
                                (value v2) (value st))))) /\
    BlackScholes sample_libm (PyInt 100) (PyInt 95) (PyFloat (Fin (1 # 32)))
                 (PyFloat (Fin (1 # 8))) (PyFloat (Fin (1 # 4))) "Put"
    = ([], Ok (VNum (NpFloat (put_price_spec sample_libm (Fin 100) (Fin 95)
                                (Fin (1 # 32)) (Fin (1 # 8)) (Fin (1 # 4))
                                (value v2) (value st))))).
Proof.
  apply (BlackScholes_returns_spec_price sample_libm
           (PyInt 100) (PyInt 95) (PyFloat (Fin (1 # 32)))
           (PyFloat (Fin (1 # 8))) (PyFloat (Fin (1 # 4))));
    try reflexivity; try discriminate;
    try (split; [lia | reflexivity]).
  apply square_in_range_quarter.
Defined.

(** With the Python float 2.0 ** 600 for volatility and otherwise valid
    parameters, [v ** 2] raises [OverflowError] before the [try]: the pricer
    returns no price, whatever the library functions. *)
Lemma BlackScholes_overflow_no_price :
  ~ exists (L : libm) (o : list string) (p : pyval),
      BlackScholes L (PyInt 100) (PyInt 95) (PyFloat (Fin (1 # 32)))
                   (PyFloat (Fin (1 # 8))) (PyFloat (Fin (Qpow2 600))) "Call"
      = (o, Ok p).
Proof.
  intros (L & o & p & H).
  rewrite (BlackScholes_square_overflow L _ _ _ _ 100 95) in H;
    try discriminate; split; try lia; reflexivity.
Qed.

Lemma BlackScholes_unknown_type_returns_None_witness :
  BlackScholes sample_libm (PyInt 100) (PyInt 95) (PyFloat (Fin (1 # 32)))
               (PyFloat (Fin (1 # 8))) (PyFloat (Fin (1 # 4))) "Straddle"
    = (["Please confirm all option parameters above"%string], Ok VNone).
Proof.
  apply (BlackScholes_unknown_type_returns_None sample_libm
           (PyInt 100) (PyInt 95) (PyFloat (Fin (1 # 32)))
           (PyFloat (Fin (1 # 8))) (PyFloat (Fin (1 # 4)))
           100 95 (1 # 32) (1 # 8) (1 # 4));
    try reflexivity; try discriminate;
    try (split; [lia | reflexivity]).
  apply square_in_range_quarter.
Defined.

(** With the Python float 2.0 ** 600 for volatility, otherwise valid
    parameters and an unknown option type, [OverflowError] reaches the
    caller: the pricer does not return None, whatever the library
    functions. *)
Lemma BlackScholes_unknown_type_overflow :
  ~ exists L : libm,
      BlackScholes L (PyInt 100) (PyInt 95) (PyFloat (Fin (1 # 32)))
                   (PyFloat (Fin (1 # 8))) (PyFloat (Fin (Qpow2 600))) "Straddle"
      = (["Please confirm all option parameters above"%string], Ok VNone).
Proof.
  intros (L & H).
  rewrite (BlackScholes_square_overflow L _ _ _ _ 100 95) in H;
    try discriminate; split; try lia; reflexivity.
Qed.

(** ** What the pricer returns *)

Lemma bind_returns {A B} (m : M A) (f : A -> M B) (o : list string) (b : B) :
  bind m f = (o, Ok b) ->
  exists o1 a o2, m = (o1, Ok a) /\ f a = (o2, Ok b) /\ o = o1 ++ o2.
Proof.
  unfold bind. destruct m as [o1 [a| |]]; try discriminate.
  destruct (f a) as [o2 r] eqn:E. intro H. injection H as <- ->.
  exists o1, a, o2. auto.
Qed.

Tactic Notation "inv_bind" hyp(H) ident(a) ident(Ha) :=
  let o1 := fresh "o" in let o2 := fresh "o" in let E := fresh "E" in
  apply bind_returns in H; destruct H as (o1 & a & o2 & Ha & H & E).

Lemma ret_returns {A} (a b : A) (o : list string) : ret a = (o, Ok b) -> a = b.
Proof. unfold ret. intro H. now injection H. Qed.

(** A float operation with a numpy float returns a numpy float. *)
Lemma float_arith_np_l ff x b o c :
  float_arith ff (NpFloat x) b = (o, Ok c) -> exists y, c = NpFloat y.
Proof.
  unfold float_arith. cbn [is_int is_np andb orb]. intro H.
  inv_bind H x' H_x_.
  inv_bind H y' H_y_.
  apply ret_returns in H. eauto.
Qed.

Lemma float_arith_np_r ff a y o c :
  float_arith ff a (NpFloat y) = (o, Ok c) -> exists z, c = NpFloat z.
Proof.
  unfold float_arith. cbn [is_int is_np andb orb].
  rewrite andb_false_r, orb_true_r. intro H.
  inv_bind H x' H_x_.
  inv_bind H y' H_y_.
  apply ret_returns in H. eauto.
Qed.

Lemma arith_np_l fz ff x b o c :
  arith fz ff (NpFloat x) b = (o, Ok c) -> exists y, c = NpFloat y.
Proof. apply float_arith_np_l. Qed.

Lemma arith_np_r fz ff a y o c :
  arith fz ff a (NpFloat y) = (o, Ok c) -> exists z, c = NpFloat z.
Proof. destruct a; apply float_arith_np_r. Qed.

Section Payoff.

Context (L : libm).

Lemma norm_cdf_returns a o c : norm_cdf L a = (o, Ok c) -> exists y, c = NpFloat y.
Proof.
  unfold norm_cdf. intro H.
  inv_bind H x H_x.
  apply ret_returns in H. eauto.
Qed.

Lemma np_exp_returns a o c : np_exp L a = (o, Ok c) -> exists y, c = NpFloat y.
Proof.
  unfold np_exp. intro H.
  inv_bind H x H_x.
  apply ret_returns in H. eauto.
Qed.

(** The [try] statement returns None or a numpy float. *)
Lemma try_block_returns (S K r t d1 d2 : scalar) (type : string)
    (o : list string) (e : scalar) :
  try_block L S K r t d1 d2 type = (o, Ok (VNum e)) -> exists y, e = NpFloat y.
Proof.
  unfold try_block, try_except. intro H.
  match type of H with
  | (match ?body with _ => _ end) = _ => destruct body as [ob [p| |]] eqn:Eb
  end; try discriminate.
  injection H as -> ->.
  apply bind_returns in Eb. destruct Eb as (o1 & Price & o2 & HP & Hr & _).
  destruct Price as [p|]; [|discriminate].
  apply ret_returns in Hr. injection Hr as ->.
  destruct (String.eqb type "Call"); [|destruct (String.eqb type "Put")];
    [| |discriminate].
  - inv_bind HP c1 Hc1.
    apply norm_cdf_returns in Hc1. destruct Hc1 as [y1 ->].
    inv_bind HP a Ha.
    apply arith_np_l in Ha. destruct Ha as [ya ->].
    inv_bind HP c2 H_c2.
    inv_bind HP b H_b.
    inv_bind HP e' H_e_.
    inv_bind HP ex H_ex.
    inv_bind HP b' H_b_.
    inv_bind HP p Hp.
    apply arith_np_l in Hp. destruct Hp as [yp ->].
    inv_bind HP p' Hp'.
    apply ret_returns in HP. injection HP as <-.
    apply ret_returns in Hp'. eauto.
  - inv_bind HP c2 Hc2.
    apply norm_cdf_returns in Hc2. destruct Hc2 as [y2 ->].
    inv_bind HP a Ha.
    apply arith_np_l in Ha. destruct Ha as [ya ->].
    inv_bind HP e' H_e_.
    inv_bind HP ex H_ex.
    inv_bind HP a' Ha'.
    apply arith_np_l in Ha'. destruct Ha' as [ya' ->].
    inv_bind HP c1 H_c1.
    inv_bind HP b H_b.
    inv_bind HP p Hp.
    apply arith_np_l in Hp. destruct Hp as [yp ->].
    inv_bind HP p' Hp'.
    apply ret_returns in HP. injection HP as <-.
    apply ret_returns in Hp'. eauto.
Qed.

(** A price returned by the pricer is a numpy float. *)
Lemma BlackScholes_returns_np (S K r t v : scalar) (type : string)
    (o : list string) (e : scalar) :
  BlackScholes L S K r t v type = (o, Ok (VNum e)) -> exists y, e = NpFloat y.
Proof.
  unfold BlackScholes. intro H.
  repeat (apply bind_returns in H;
          let o1 := fresh "o" in let a := fresh "a" in let o2 := fresh "o" in
          let H1 := fresh "H" in let H3 := fresh "H" in
          destruct H as (o1 & a & o2 & H1 & H & H3); clear H1).
  eapply try_block_returns. exact H.
Qed.

(** The payoff of two prices. *)
Lemma calculate_payoff_prices (S1 K r1 t1 v1 S2 r2 t2 v2 : scalar)
    (option position : string) (o1 o2 : list string) (e x : float64) :
  BlackScholes L S1 K r1 t1 v1 option = (o1, Ok (VNum (NpFloat e))) ->
  BlackScholes L S2 K r2 t2 v2 option = (o2, Ok (VNum (NpFloat x))) ->
  calculate_payoff L S1 K r1 t1 v1 S2 r2 t2 v2 option position
  = (o1 ++ o2,
     Ok (VNum (NpFloat (fround2 (fmul (if String.eqb position "Long"
                                       then fsub x e else fsub e x)
                                      (Fin 100)))))).
Proof.
  intros He Hx. unfold calculate_payoff. rewrite He, Hx.
  unfold bind at 1 2.
  destruct (String.eqb position "Long");
    unfold py_sub, sub; cbn [arith float_arith is_int is_np andb orb np_float value];
    rewrite !bind_ret; unfold py_mul, mul;
    rewrite (arith_float_l _ _ (NpFloat _) (PyInt 100) 100 eq_refl holds_100);
    rewrite !bind_ret, join_np_l by reflexivity; cbn [value py_round_2 round_2];
    rewrite !bind_ret; unfold ret; rewrite !app_nil_r; reflexivity.
Qed.

(** C2. When the pricer returns a price on the T0 and on the T1 snapshot
    (same strike and option kind), the payoff engine returns, for either
    position, [round(net * 100, 2)], where [net] is exit price minus entry
    price for "Long" and entry price minus exit price otherwise, and prints
    nothing of its own. *)
Theorem calculate_payoff_returns_spec_pnl
    (S1 K r1 t1 v1 S2 r2 t2 v2 : scalar) (option position : string)
    (o1 o2 : list string) (entryPrice exitPrice : scalar) :
  BlackScholes L S1 K r1 t1 v1 option = (o1, Ok (VNum entryPrice)) ->
  BlackScholes L S2 K r2 t2 v2 option = (o2, Ok (VNum exitPrice)) ->
  calculate_payoff L S1 K r1 t1 v1 S2 r2 t2 v2 option position
  = (o1 ++ o2,
     Ok (VNum (NpFloat
       (fround2 (fmul (if String.eqb position "Long"
                       then fsub (value exitPrice) (value entryPrice)
                       else fsub (value entryPrice) (value exitPrice))
                      (Fin 100)))))).
Proof.
  intros He Hx.
  destruct (BlackScholes_returns_np _ _ _ _ _ _ _ _ He) as [e ->].
  destruct (BlackScholes_returns_np _ _ _ _ _ _ _ _ Hx) as [x ->].
  now apply calculate_payoff_prices.
Qed.

(** C6. When the pricer returns a (finite) price on both snapshots, the
    payoff for "Long" is the negation of the payoff for "Short" on the same
    snapshots. *)
Theorem calculate_payoff_long_is_minus_short
    (S1 K r1 t1 v1 S2 r2 t2 v2 : scalar) (option : string)
    (o1 o2 : list string) (e x : scalar) (pe px : Q) :
  BlackScholes L S1 K r1 t1 v1 option = (o1, Ok (VNum e)) ->
  BlackScholes L S2 K r2 t2 v2 option = (o2, Ok (VNum x)) ->
  holds e pe -> holds x px ->
  exists short : scalar,
    calculate_payoff L S1 K r1 t1 v1 S2 r2 t2 v2 option "Short"
      = (o1 ++ o2, Ok (VNum short)) /\
    calculate_payoff L S1 K r1 t1 v1 S2 r2 t2 v2 option "Long"
      = (o1 ++ o2, Ok (VNum (neg short))).
Proof.
  intros He Hx _ _.
  destruct (BlackScholes_returns_np _ _ _ _ _ _ _ _ He) as [pe' ->].
  destruct (BlackScholes_returns_np _ _ _ _ _ _ _ _ Hx) as [px' ->].
  eexists. split.
  - apply (calculate_payoff_prices _ _ _ _ _ _ _ _ _ _ "Short" _ _ _ _ He Hx).
  - rewrite (calculate_payoff_prices _ _ _ _ _ _ _ _ _ _ "Long" _ _ _ _ He Hx).
    simpl String.eqb. cbv iota. cbn [neg].
    rewrite (fsub_antisym px' pe'), fmul_opp_l, fround2_opp. reflexivity.
Qed.

End Payoff.

Lemma calculate_payoff_returns_spec_pnl_witness :
  calculate_payoff sample_libm
      (PyInt 100) (PyInt 95) (PyFloat (Fin (1 # 32))) (PyFloat (Fin (1 # 8)))
      (PyFloat (Fin (1 # 4)))
      (PyInt 101) (PyFloat (Fin (1 # 32))) (PyFloat (Fin (1 # 8)))
      (PyFloat (Fin (1 # 4))) "Call" "Long"
  = ([] ++ [],
     Ok (VNum (NpFloat
       (fround2 (fmul (if String.eqb "Long" "Long"
                       then fsub (value (NpFloat (Fin (1030198414761001 # 140737488355328))))
                                 (value (NpFloat (Fin (1854920096523223 # 281474976710656))))
                       else fsub (value (NpFloat (Fin (1854920096523223 # 281474976710656))))
                                 (value (NpFloat (Fin (1030198414761001 # 140737488355328)))))
                      (Fin 100)))))).
Proof.
  apply (calculate_payoff_returns_spec_pnl sample_libm);
    vm_compute; reflexivity.
Defined.

Lemma calculate_payoff_long_is_minus_short_witness :
  exists short : scalar,
    calculate_payoff sample_libm
        (PyInt 100) (PyInt 95) (PyFloat (Fin (1 # 32))) (PyFloat (Fin (1 # 8)))
        (PyFloat (Fin (1 # 4)))
        (PyInt 101) (PyFloat (Fin (1 # 32))) (PyFloat (Fin (1 # 8)))
        (PyFloat (Fin (1 # 4))) "Call" "Short"
      = ([] ++ [], Ok (VNum short)) /\
    calculate_payoff sample_libm
        (PyInt 100) (PyInt 95) (PyFloat (Fin (1 # 32))) (PyFloat (Fin (1 # 8)))
        (PyFloat (Fin (1 # 4)))
        (PyInt 101) (PyFloat (Fin (1 # 32))) (PyFloat (Fin (1 # 8)))
        (PyFloat (Fin (1 # 4))) "Call" "Long"
      = ([] ++ [], Ok (VNum (neg short))).
Proof.
  apply (calculate_payoff_long_is_minus_short sample_libm
           (PyInt 100) (PyInt 95) (PyFloat (Fin (1 # 32))) (PyFloat (Fin (1 # 8)))
           (PyFloat (Fin (1 # 4)))
           (PyInt 101) (PyFloat (Fin (1 # 32))) (PyFloat (Fin (1 # 8)))
           (PyFloat (Fin (1 # 4))) "Call" [] []
           (NpFloat (Fin (1854920096523223 # 281474976710656)))
           (NpFloat (Fin (1030198414761001 # 140737488355328)))
           (1854920096523223 # 281474976710656)
           (1030198414761001 # 140737488355328));
    vm_compute; reflexivity.
Defined.

Local Open Scope Q_scope.

(** ** The pricer on moderate parameters *)

Lemma moderate_pos q : moderate q -> 0 < q.
Proof.
  intros [H _]. eapply Qlt_le_trans; [apply (Qpow2_pos (- 500)) | exact H].
Qed.

Lemma moderate_bounded q : moderate q -> bounded 500 (Fin q).
Proof.
  intro H. pose proof (moderate_pos q H). destruct H as [_ H].
  apply bounded_pos; [lra | exact H].
Qed.

Lemma moderate_product x y :
  moderate x -> moderate y -> Qpow2 (- 1000) <= x * y /\ x * y <= Qpow2 1000.
Proof.
  intros Hx Hy.
  pose proof (moderate_pos x Hx) as Px. pose proof (moderate_pos y Hy) as Py.
  destruct Hx as [Hx1 Hx2], Hy as [Hy1 Hy2].
  pose proof (Qpow2_pos (- 500)) as P.
  split.
  - change (- 1000)%Z with (- 500 + - 500)%Z. rewrite Qpow2_add.
    apply Qmult_le_compat_nonneg; split; try assumption; lra.
  - change 1000%Z with (500 + 500)%Z. rewrite Qpow2_add.
    apply Qmult_le_compat_nonneg; split; try assumption; lra.
Qed.

Lemma moderate_quotient x y :
  moderate x -> moderate y -> Qpow2 (- 1000) <= x / y /\ x / y <= Qpow2 1000.
Proof.
  intros Hx Hy.
  pose proof (moderate_pos x Hx) as Px. pose proof (moderate_pos y Hy) as Py.
  destruct Hx as [Hx1 Hx2], Hy as [Hy1 Hy2].
  pose proof (Qpow2_pos (- 1000)) as P. pose proof (Qpow2_pos 1000) as P'.
  split.
  - apply Qle_shift_div_l; [exact Py|].
    apply Qle_trans with (Qpow2 (- 1000) * Qpow2 500).
    + apply Qmult_le_l; assumption.
    + rewrite <- Qpow2_add. exact Hx1.
  - apply Qle_shift_div_r; [exact Py|].
    apply Qle_trans with (Qpow2 1000 * Qpow2 (- 500)).
    + rewrite <- Qpow2_add. exact Hx2.
    + apply Qmult_le_l; assumption.
Qed.

Lemma round64_moderate q :
  Qpow2 (- 1000) <= q -> q <= Qpow2 1000 -> exists y, round64 q = Fin y /\ 0 < y.
Proof.
  intros H1 H2. apply (round64_pos 1000); [lia | | exact H2].
  eapply Qle_trans; [|exact H1]. apply Qpow2_le. lia.
Qed.

Section Finite.

Context (L : libm).

(** [t ** 0.5] for a Python float. *)
Lemma pow_half_moderate (tau : Q) :
  moderate tau ->
  exists y, pow_half L (PyFloat (Fin tau)) = ret (PyFloat (Fin y)) /\ moderate y.
Proof.
  intro Hm. pose proof (moderate_pos tau Hm) as Hp.
  unfold pow_half. cbn [py_float value]. rewrite bind_ret. unfold float_pow_half.
  replace (Qeq_bool tau 0) with false.
  2:{ symmetry. apply not_true_is_false. intro H. apply Qeq_bool_eq in H. lra. }
  replace (Qle_bool tau 0) with false.
  2:{ symmetry. apply not_true_is_false. intro H. apply Qle_bool_iff in H. lra. }
  destruct (Qeq_bool tau 1).
  - rewrite bind_ret. exists 1. split; [reflexivity|]. split; discriminate.
  - destruct (pow64_root_bounds L tau Hp) as (y & -> & Hlo & Hhi).
    rewrite bind_ret. exists y. split; [reflexivity|].
    destruct Hm as [Hm1 Hm2].
    assert (H1 : Qpow2 (- 500) <= 1) by discriminate.
    assert (H2 : 1 <= Qpow2 500) by discriminate.
    destruct (Qlt_le_dec tau 1) as [Hlt|Hge].
    + destruct Hlo as [Ha Hb]; [lra|]. split; lra.
    + destruct (Hhi Hge) as [Ha Hb]. split; lra.
Qed.

(** [v ** 2] for a Python float. *)
Lemma pow_2_moderate (sigma : Q) :
  moderate sigma ->
  exists y2, pow_2 L (PyFloat (Fin sigma)) = ret (PyFloat (Fin y2)).
Proof.
  intro Hm. pose proof (moderate_pos sigma Hm) as Hp.
  unfold pow_2, float_pow_2.
  destruct (Qeq_bool sigma 0); [rewrite bind_ret; eauto|].
  destruct (Qeq_bool (Qabs sigma) 1); [rewrite bind_ret; eauto|].
  destruct (pow64_square_finite L (Qabs sigma)) as [y ->].
  - rewrite Qabs_pos by apply Qabs_nonneg. rewrite Qabs_pos by lra.
    destruct Hm as [_ Hm]. eapply Qle_trans; [exact Hm|]. apply Qpow2_le. lia.
  - rewrite bind_ret. eauto.
Qed.

(** The two intermediate values are not NaN. *)
Lemma d1_d2_not_nan (s k rho tau sigma y2 y : Q) :
  moderate s -> moderate k -> moderate tau -> moderate sigma -> moderate y ->
  d1_spec L (Fin s) (Fin k) (Fin rho) (Fin tau) (Fin sigma) (Fin y2) (Fin y) <> NaN /\
  d2_spec L (Fin s) (Fin k) (Fin rho) (Fin tau) (Fin sigma) (Fin y2) (Fin y) <> NaN.
Proof.
  intros Hs Hk Ht Hv Hy.
  pose proof (moderate_pos k Hk) as Pk. pose proof (moderate_pos tau Ht) as Pt.
  destruct (moderate_product sigma y Hv Hy) as [Hd1 Hd2].
  destruct (round64_moderate _ Hd1 Hd2) as (delta & Hdelta & Pdelta).
  destruct (moderate_quotient s k Hs Hk) as [Hq1 Hq2].
  destruct (round64_moderate _ Hq1 Hq2) as (q & Hq & Pq).
  destruct (log64_finite L q Pq) as [l Hl].
  assert (Hd1' : d1_spec L (Fin s) (Fin k) (Fin rho) (Fin tau) (Fin sigma) (Fin y2) (Fin y)
                 <> NaN).
  { unfold d1_spec.
    replace (fmul (Fin sigma) (Fin y)) with (Fin delta) by (symmetry; exact Hdelta).
    apply fdiv_pos_not_nan; [|exact Pdelta].
    replace (fdiv (Fin s) (Fin k)) with (Fin q).
    2:{ cbn [fdiv]. replace (Qeq_bool k 0) with false; [now symmetry|].
        symmetry. apply not_true_is_false. intro H. apply Qeq_bool_eq in H. lra. }
    rewrite Hl. apply fadd_fin_not_nan.
    apply fmul_pos_not_nan; [|exact Pt].
    apply fadd_fin_not_nan.
    apply fdiv_pos_not_nan; [discriminate | reflexivity]. }
  split; [exact Hd1'|].
  unfold d2_spec.
  replace (fmul (Fin sigma) (Fin y)) with (Fin delta) by (symmetry; exact Hdelta).
  apply fsub_not_nan_fin. exact Hd1'.
Qed.

Lemma cdf64_bounded (x : float64) : x <> NaN -> bounded 0 (cdf64 L x).
Proof.
  intro H. destruct (cdf64_range L x H) as (y & -> & H0 & H1). now apply bounded_unit.
Qed.

(** The discount factor is between 0 and 1. *)
Lemma discount_bounded (rho tau : Q) :
  0 <= rho -> rho <= Qpow2 500 -> moderate tau ->
  bounded 0 (exp64 L (fmul (fneg (Fin rho)) (Fin tau))).
Proof.
  intros H0 H1 Ht. pose proof (moderate_pos tau Ht) as Pt. destruct Ht as [_ Ht].
  cbn [fneg fmul].
  destruct (round64_bound 1000 (- rho * tau)) as (e & He & _); [lia| |].
  - rewrite Qabs_Qmult, Qabs_opp, !Qabs_pos by lra.
    change 1000%Z with (500 + 500)%Z. rewrite Qpow2_add.
    apply Qmult_le_compat_nonneg; split; try assumption; lra.
  - rewrite He.
    assert (Hneg : e <= 0).
    { apply (round64_nonpos (- rho * tau)); [|exact He].
      assert (0 <= rho * tau) by (apply Qmult_le_0_compat; lra). lra. }
    destruct (exp64_range L e Hneg) as (c & -> & Hc0 & Hc1).
    now apply bounded_unit.
Qed.

(** The price is a finite number. *)
Lemma price_spec_bounded (type : string) (s k rho tau sigma y2 y : Q) :
  moderate s -> moderate k -> 0 <= rho -> rho <= Qpow2 500 ->
  moderate tau -> moderate sigma -> moderate y ->
  bounded 508 (price_spec L type (Fin s) (Fin k) (Fin rho) (Fin tau) (Fin sigma)
                          (Fin y2) (Fin y)).
Proof.
  intros Hs Hk Hr0 Hr1 Ht Hv Hy.
  destruct (d1_d2_not_nan s k rho tau sigma y2 y Hs Hk Ht Hv Hy) as [N1 N2].
  pose proof (moderate_bounded s Hs) as Bs.
  pose proof (moderate_bounded k Hk) as Bk.
  pose proof (discount_bounded rho tau Hr0 Hr1 Ht) as Be.
  unfold price_spec, call_price_spec, put_price_spec.
  destruct (String.eqb type "Call").
  - apply (fround2_bounded 501); [lia | lia |].
    apply (fsub_bounded 500); [lia | |].
    + apply (fmul_bounded 0 500); [lia | now apply cdf64_bounded | exact Bs].
    + apply (fmul_bounded 500 0); [lia | | exact Be].
      apply (fmul_bounded 0 500); [lia | now apply cdf64_bounded | exact Bk].
  - apply (fround2_bounded 501); [lia | lia |].
    apply (fsub_bounded 500); [lia | |].
    + apply (fmul_bounded 500 0); [lia | | exact Be].
      apply (fmul_bounded 0 500); [lia | | exact Bk].
      apply cdf64_bounded. now apply fneg_not_nan.
    + apply (fmul_bounded 0 500); [lia | | exact Bs].
      apply cdf64_bounded. now apply fneg_not_nan.
Qed.

(** On moderate parameters, with the time and the volatility Python floats
    as the sliders give them, the pricer returns a finite number. *)
Lemma BlackScholes_finite (S K r : scalar) (s k rho tau sigma : Q) (type : string) :
  holds S s -> holds K k -> holds_float r rho ->
  moderate s -> moderate k -> 0 <= rho -> rho <= Qpow2 500 ->
  moderate tau -> moderate sigma ->
  type = "Call"%string \/ type = "Put"%string ->
  exists p : float64,
    BlackScholes L S K r (PyFloat (Fin tau)) (PyFloat (Fin sigma)) type
    = ([], Ok (VNum (NpFloat p))) /\ bounded 508 p.
Proof.
  intros HS HK Hr Hs Hk Hr0 Hr1 Ht Hv Hty.
  pose proof (moderate_pos k Hk) as Pk. pose proof (moderate_pos tau Ht) as Pt.
  destruct (pow_half_moderate tau Ht) as (y & Hst & Hy).
  destruct (pow_2_moderate sigma Hv) as (y2 & Hv2).
  rewrite (BlackScholes_d1_d2 L S K r _ _ (PyFloat (Fin y2)) (PyFloat (Fin y))
             s k rho tau sigma) by (auto; try reflexivity; lra).
  rewrite (try_block_price L S K r _ s k rho tau) by (auto; reflexivity).
  eexists. split; [reflexivity|].
  pose proof (price_spec_bounded type s k rho tau sigma y2 y Hs Hk Hr0 Hr1 Ht Hv Hy) as Hb.
  unfold price_spec, call_price_spec, put_price_spec in Hb. cbn [value].
  destruct (String.eqb type "Call"); exact Hb.
Qed.

(** The payoff engine on moderate parameters returns a finite number. *)
Lemma calculate_payoff_finite (S1 K r1 S2 r2 : scalar)
    (s1 k rho1 tau1 sigma1 s2 rho2 tau2 sigma2 : Q) (type position : string) :
  holds S1 s1 -> holds K k -> holds_float r1 rho1 ->
  holds S2 s2 -> holds_float r2 rho2 ->
  moderate s1 -> moderate k -> 0 <= rho1 -> rho1 <= Qpow2 500 ->
  moderate tau1 -> moderate sigma1 ->
  moderate s2 -> 0 <= rho2 -> rho2 <= Qpow2 500 ->
  moderate tau2 -> moderate sigma2 ->
  type = "Call"%string \/ type = "Put"%string ->
  exists p : Q,
    calculate_payoff L S1 K r1 (PyFloat (Fin tau1)) (PyFloat (Fin sigma1))
                     S2 r2 (PyFloat (Fin tau2)) (PyFloat (Fin sigma2)) type position
    = ([], Ok (VNum (NpFloat (Fin p)))).
Proof.
  intros HS1 HK Hr1 HS2 Hr2 Hs1 Hk Ha1 Hb1 Ht1 Hv1 Hs2 Ha2 Hb2 Ht2 Hv2 Hty.
  destruct (BlackScholes_finite S1 K r1 s1 k rho1 tau1 sigma1 type) as (e & He & Be); auto.
  destruct (BlackScholes_finite S2 K r2 s2 k rho2 tau2 sigma2 type) as (x & Hx & Bx); auto.
  rewrite (calculate_payoff_prices L _ _ _ _ _ _ _ _ _ _ position _ _ _ _ He Hx).
  assert (Hb : bounded 523
            (fround2 (fmul (if String.eqb position "Long" then fsub x e else fsub e x)
                           (Fin 100)))).
  { apply (fround2_bounded 516); [lia | lia |].
    apply (fmul_bounded 509 7); [lia | | apply bounded_Fin; discriminate].
    destruct (String.eqb position "Long"); apply (fsub_bounded 508); auto; lia. }
  destruct Hb as (p & -> & _). exists p. reflexivity.
Qed.

End Finite.

Local Close Scope Q_scope.

(** ** The axis generator *)

Lemma Qtrunc_inject_Z z : Qtrunc (inject_Z z) = z.
Proof. unfold Qtrunc, inject_Z. simpl. apply Z.quot_1_r. Qed.

Lemma ranges_exact (x : Z) :
  (Z.abs x <= 2 ^ 53 - 4)%Z -> ranges x = ret (around x).
Proof.
  intro Hx. unfold ranges. cbv zeta.
  assert (Hlo : in_int64 (x - 4) = true) by (unfold in_int64; lia).
  assert (Hhi : in_int64 (x + 4) = true) by (unfold in_int64; lia).
  rewrite Hlo, Hhi. cbn [andb].
  replace (x + 4)%Z with (x - 4 + 8)%Z by lia.
  rewrite linspace_exact by lia.
  unfold astype_int. cbn [map forallb]. rewrite !Qtrunc_inject_Z.
  assert (Hin : forall z, (Z.abs z <= 2 ^ 53)%Z -> in_int64 z = true)
    by (intros z Hz; unfold in_int64; lia).
  rewrite !Hin by lia. cbn [andb].
  unfold around, ret. do 2 f_equal.
  repeat (apply (f_equal2 (@cons Z)); [lia|]). reflexivity.
Qed.

(** ** Lists: the rows, the pivot *)

Lemma mapM_all_return {A B} (f : A -> M B) (g : A -> B) (l : list A) :
  (forall a, In a l -> f a = ret (g a)) -> mapM f l = ret (map g l).
Proof.
  induction l as [|a l IH]; intro H; simpl; [reflexivity|].
  rewrite (H a) by (now left). rewrite bind_ret.
  rewrite IH by (intros; apply H; now right). now rewrite bind_ret.
Qed.


Lemma key_eqb_eq a b : key_eqb a b = true <-> a = b.
Proof.
  destruct a as [a1 a2], b as [b1 b2]. unfold key_eqb. simpl.
  rewrite andb_true_iff, !Z.eqb_eq. split; [intros [-> ->]; reflexivity|].
  intro H. injection H as -> ->. auto.
Qed.

Lemma has_duplicate_NoDup keys : NoDup keys -> has_duplicate keys = false.
Proof.
  induction 1 as [|k keys Hk Hn IH]; simpl; [reflexivity|].
  rewrite IH, orb_false_r. apply not_true_is_false. intro H.
  apply existsb_exists in H. destruct H as (k' & Hin & E).
  apply key_eqb_eq in E. subst. contradiction.
Qed.

Lemma in_cross spots strikes a b :
  In (a, b) (cross spots strikes) <-> In a spots /\ In b strikes.
Proof.
  unfold cross. rewrite in_flat_map. split.
  - intros (x & Hx & H). apply in_map_iff in H. destruct H as (y & E & Hy).
    injection E as -> ->. auto.
  - intros [Ha Hb]. exists a. split; auto. apply in_map_iff. eauto.
Qed.

Lemma NoDup_cross spots strikes :
  NoDup spots -> NoDup strikes -> NoDup (cross spots strikes).
Proof.
  intros Hs Hk. induction Hs as [|a spots Ha Hs IH]; simpl; [constructor|].
  apply NoDup_app; auto.
  - apply NoDup_map_NoDup_ForallPairs; auto.
    intros x y _ _ E. now injection E.
  - intros [x y] H1 H2. apply in_map_iff in H1. destruct H1 as (y' & E & _).
    injection E as <- _. apply in_cross in H2. tauto.
Qed.

Lemma lookup_combine (g : Z * Z -> pyval) (keys : list (Z * Z)) (k : Z * Z) :
  In k keys -> lookup k (combine keys (map g keys)) = Some (g k).
Proof.
  induction keys as [|k' keys IH]; simpl; [tauto|].
  intro H. destruct (key_eqb k k') eqn:E.
  - apply key_eqb_eq in E. now subst.
  - destruct H as [-> | H]; [|auto].
    assert (key_eqb k k = true) by now apply key_eqb_eq. congruence.
Qed.

Lemma ascending_NoDup l : ascending l -> NoDup l.
Proof.
  induction 1 as [|a l Hl IH Ha]; constructor; auto.
  intro H. rewrite Forall_forall in Ha. specialize (Ha a H). lia.
Qed.

Lemma ascending_around x : ascending (around x).
Proof. unfold ascending, around. repeat (constructor; [|repeat constructor; lia]). constructor. Qed.

Lemma insert_unique_below z l : ascending (z :: l) -> insert_unique z l = z :: l.
Proof.
  intro H. inversion H as [|? ? _ Hz]; subst.
  destruct l as [|y l]; [reflexivity|]. simpl.
  inversion Hz; subst. replace (z <? y)%Z with true by lia. reflexivity.
Qed.

Lemma insert_unique_member z l : ascending l -> In z l -> insert_unique z l = l.
Proof.
  induction 1 as [|y l Hl IH Hy]; simpl; [tauto|].
  intros [-> | Hin].
  - rewrite Z.ltb_irrefl, Z.eqb_refl. reflexivity.
  - rewrite Forall_forall in Hy. specialize (Hy z Hin).
    replace (z <? y)%Z with false by lia. replace (z =? y)%Z with false by lia.
    now rewrite IH.
Qed.

Lemma sorted_unique_ascending l : ascending l -> sorted_unique l = l.
Proof.
  induction 1 as [|a l Hl IH Ha]; [reflexivity|].
  unfold sorted_unique in *. simpl. rewrite IH.
  apply insert_unique_below. now constructor.
Qed.

Lemma insert_members l1 l : ascending l -> incl l1 l -> fold_right insert_unique l l1 = l.
Proof.
  intros Hl. induction l1 as [|a l1 IH]; intro Hi; simpl; [reflexivity|].
  rewrite IH by (intros x Hx; apply Hi; now right).
  apply insert_unique_member; auto. apply Hi. now left.
Qed.

Lemma sorted_unique_app l1 l2 :
  sorted_unique (l1 ++ l2) = fold_right insert_unique (sorted_unique l2) l1.
Proof. unfold sorted_unique. apply fold_right_app. Qed.

Lemma sorted_unique_spots spots strikes :
  ascending spots -> strikes <> [] ->
  sorted_unique (map fst (cross spots strikes)) = spots.
Proof.
  intros Hs Hk. induction Hs as [|a spots Hs IH Ha]; [reflexivity|].
  simpl. rewrite map_app, sorted_unique_app, IH, map_map. simpl.
  assert (Hasc : ascending (a :: spots)) by now constructor.
  destruct strikes as [|k strikes]; [congruence|]. clear Hk IH.
  induction strikes as [|k' strikes IHk]; simpl.
  - now apply insert_unique_below.
  - simpl in IHk. rewrite IHk. apply insert_unique_member; auto. now left.
Qed.

Lemma sorted_unique_strikes spots strikes :
  ascending strikes -> spots <> [] ->
  sorted_unique (map snd (cross spots strikes)) = strikes.
Proof.
  intros Hk Hs. destruct spots as [|a spots]; [congruence|]. clear Hs.
  revert a. induction spots as [|b spots IH]; intro a; simpl.
  - rewrite app_nil_r, map_map. simpl. rewrite map_id.
    now apply sorted_unique_ascending.
  - rewrite map_app, sorted_unique_app, map_map. simpl map at 1. rewrite map_id.
    specialize (IH b). simpl in IH. rewrite IH.
    apply insert_members; auto. apply incl_refl.
Qed.

(** The pivot of a full cross product of two ascending axes: the axes are
    kept, and the cell of every pair holds its value. *)
Lemma pivot_cross (g : Z * Z -> pyval) (spots strikes : list Z) :
  ascending spots -> ascending strikes -> spots <> [] -> strikes <> [] ->
  pivot (cross spots strikes) (map g (cross spots strikes))
  = ret {| index := spots;
           columns := strikes;
           data := map (fun i => map (fun c => cell_value (g (i, c))) strikes) spots |}.
Proof.
  intros Hs Hk Hs0 Hk0. unfold pivot.
  rewrite has_duplicate_NoDup by (apply NoDup_cross; now apply ascending_NoDup).
  rewrite sorted_unique_spots, sorted_unique_strikes by assumption.
  unfold ret. do 3 f_equal.
  apply map_ext_in. intros i Hi. apply map_ext_in. intros c Hc.
  rewrite lookup_combine by (apply in_cross; auto). reflexivity.
Qed.

Lemma nth_around (x : Z) (i : nat) :
  (i < 9)%nat -> nth i (around x) 0%Z = (x - 4 + Z.of_nat i)%Z.
Proof. intro Hi. do 9 (destruct i as [|i]; [simpl; lia|]). lia. Qed.

Lemma nth_map_in {A B} (f : A -> B) (l : list A) (i : nat) (da : A) (db : B) :
  (i < length l)%nat -> nth i (map f l) db = f (nth i l da).
Proof.
  intro Hi. rewrite (nth_indep _ db (f da)) by now rewrite length_map.
  apply map_nth.
Qed.

Lemma in_around (x z : Z) : In z (around x) -> (x - 4 <= z <= x + 4)%Z.
Proof. unfold around. simpl. intuition lia. Qed.

Lemma in_around_nth (x : Z) (i : nat) :
  (i < 9)%nat -> In (x - 4 + Z.of_nat i)%Z (around x).
Proof.
  intro Hi. rewrite <- (nth_around x i Hi). apply nth_In. simpl. lia.
Qed.

Lemma holds_np_int (z : Z) :
  (Z.abs z <= 2 ^ 53)%Z -> holds (np_int z) (inject_Z z).
Proof. intro H. split; [exact H | reflexivity]. Qed.

(** ** The grid *)

Section GridRows.

Context (L : libm).

(** The payoff engine when the pricer returns on both snapshots: on an
    option type "Call" or "Put", a strike that is not zero, times that are
    not negative and volatilities whose squares do not overflow. *)
Lemma calculate_payoff_returns_price
    (S1 K r1 t1 v1 S2 r2 t2 v2 : scalar)
    (s1 k rho1 tau1 sigma1 s2 rho2 tau2 sigma2 : Q) (type position : string) :
  holds S1 s1 -> holds K k -> holds_float r1 rho1 -> holds_float t1 tau1 ->
  holds_float v1 sigma1 ->
  holds S2 s2 -> holds_float r2 rho2 -> holds_float t2 tau2 ->
  holds_float v2 sigma2 ->
  ~ (k == 0)%Q -> (0 <= tau1)%Q -> (0 <= tau2)%Q ->
  square_in_range v1 -> square_in_range v2 ->
  type = "Call"%string \/ type = "Put"%string ->
  exists p : float64,
    calculate_payoff L S1 K r1 t1 v1 S2 r2 t2 v2 type position
    = ([], Ok (VNum (NpFloat p))).
Proof.
  intros HS1 HK Hr1 Ht1 Hv1 HS2 Hr2 Ht2 Hv2 Hk Htau1 Htau2 Hsq1 Hsq2 Hty.
  destruct (BlackScholes_price L S1 K r1 t1 v1 s1 k rho1 tau1 sigma1 type)
    as (a1 & b1 & _ & _ & He); auto.
  destruct (BlackScholes_price L S2 K r2 t2 v2 s2 k rho2 tau2 sigma2 type)
    as (a2 & b2 & _ & _ & Hx); auto.
  eexists.
  apply (calculate_payoff_prices L _ _ _ _ _ _ _ _ _ _ position _ _ _ _ He Hx).
Qed.

(** When the payoff engine returns a number on every row of [df],
    [heatmap_data] is the pivot of these rows. *)
Lemma heatmap_data_rows (S1 : scalar) (K : Z) (r1 t1 v1 : scalar) (S2 : Z)
    (r2 t2 v2 : scalar) (type position : string) (spots strikes : list Z) :
  ranges S2 = ret spots -> ranges K = ret strikes ->
  (forall spot strike, In spot spots -> In strike strikes ->
     exists p : float64,
       calculate_payoff L S1 (np_int strike) r1 t1 v1
                        (np_int spot) r2 t2 v2 type position
       = ([], Ok (VNum (NpFloat p)))) ->
  heatmap_data L S1 K r1 t1 v1 S2 r2 t2 v2 type position
  = pivot (cross spots strikes)
      (map (fun row => returned VNone
              (calculate_payoff L S1 (np_int (snd row)) r1 t1 v1
                                (np_int (fst row)) r2 t2 v2 type position))
           (cross spots strikes)).
Proof.
  intros HS2 HK Hrows. unfold heatmap_data.
  rewrite HS2, bind_ret, HK, bind_ret. cbv zeta.
  rewrite (mapM_all_return _
             (fun row => returned VNone
                (calculate_payoff L S1 (np_int (snd row)) r1 t1 v1
                                  (np_int (fst row)) r2 t2 v2 type position))).
  - now rewrite bind_ret.
  - intros [spot strike] Hin. apply in_cross in Hin. destruct Hin as [Hs Hk].
    destruct (Hrows spot strike Hs Hk) as [p Hp]. cbn [fst snd].
    rewrite Hp. reflexivity.
Qed.

End GridRows.

Local Open Scope Q_scope.

(** ** NaN through the operations *)

Lemma fsub_nan_l y : fsub NaN y = NaN.
Proof. now destruct y. Qed.

Lemma fsub_nan_r x : fsub x NaN = NaN.
Proof. now destruct x. Qed.

Lemma fmul_nan_l y : fmul NaN y = NaN.
Proof. now destruct y. Qed.

Lemma round64_zero q : q == 0 -> round64 q = Fin 0.
Proof. intro H. now rewrite (round64_Qeq q 0 H). Qed.

(** A product with a zero is zero or NaN. *)
Lemma fmul_zero_r x tau : tau == 0 -> fmul x (Fin tau) = Fin 0 \/ fmul x (Fin tau) = NaN.
Proof.
  intro H. destruct x as [a| | |]; cbn [fmul].
  - left. apply round64_zero. rewrite H. ring.
  - right. unfold signed_inf. now rewrite (proj1 (Qeq_alt tau 0) H).
  - right. unfold signed_inf.
    assert (H' : - tau == 0) by (rewrite H; reflexivity).
    now rewrite (proj1 (Qeq_alt (- tau) 0) H').
  - now right.
Qed.

Section ZeroTime.

Context (L : libm).

(** At [t = 0] (a Python float) and [S = K] the two intermediate values are
    NaN: [d1] is [0 / 0]. *)
Lemma d1_zero_time (s k rho tau sigma : Q) (x2 : float64) :
  s == k -> ~ k == 0 -> tau == 0 ->
  d1_spec L (Fin s) (Fin k) (Fin rho) (Fin tau) (Fin sigma) x2 (Fin 0) = NaN.
Proof.
  intros Hsk Hk Htau. unfold d1_spec.
  assert (Hden : fmul (Fin sigma) (Fin 0) = Fin 0).
  { cbn [fmul]. apply round64_zero. ring. }
  assert (Hq : fdiv (Fin s) (Fin k) = Fin 1).
  { cbn [fdiv]. replace (Qeq_bool k 0) with false.
    - rewrite (round64_Qeq (s / k) 1); [reflexivity|]. rewrite Hsk. now field.
    - symmetry. apply not_true_is_false. intro H. now apply Qeq_bool_eq in H. }
  rewrite Hden, Hq, (log64_one L).
  destruct (fmul_zero_r (fadd (Fin rho) (fdiv x2 (Fin 2))) tau Htau) as [-> | ->].
  - reflexivity.
  - reflexivity.
Qed.

Lemma price_spec_nan (type : string) (S K r t v x2 st : float64) :
  d1_spec L S K r t v x2 st = NaN ->
  price_spec L type S K r t v x2 st = NaN.
Proof.
  intro H. unfold price_spec, call_price_spec, put_price_spec, d2_spec.
  rewrite H, fsub_nan_l. cbn [fneg]. rewrite (cdf64_nan L), !fmul_nan_l.
  destruct (String.eqb type "Call").
  - now rewrite fsub_nan_l.
  - now rewrite fsub_nan_l.
Qed.

(** At [t = 0] and [S = K] the pricer returns NaN. *)
Lemma BlackScholes_zero_time_nan (S K r v : scalar) (s k rho tau sigma : Q)
    (type : string) :
  holds S s -> holds K k -> holds_float r rho -> holds_float v sigma ->
  s == k -> ~ k == 0 -> tau == 0 -> square_in_range v ->
  type = "Call"%string \/ type = "Put"%string ->
  BlackScholes L S K r (PyFloat (Fin tau)) v type = ([], Ok (VNum (NpFloat NaN))).
Proof.
  intros HS HK Hr Hv Hsk Hk Htau Hsq Hty.
  destruct (BlackScholes_price L S K r (PyFloat (Fin tau)) v s k rho tau sigma type)
    as (v2 & st & Hv2 & Hst & H); auto; try reflexivity; try lra.
  rewrite H. do 4 f_equal.
  assert (Est : st = PyFloat (Fin 0)).
  { unfold pow_half in Hst. cbn [py_float value] in Hst. rewrite bind_ret in Hst.
    unfold float_pow_half in Hst.
    rewrite (proj2 (Qeq_bool_iff tau 0) Htau), bind_ret in Hst.
    now injection Hst. }
  subst st. cbn [value].
  apply price_spec_nan. now apply d1_zero_time.
Qed.

End ZeroTime.

Lemma moderate_int (z : Z) : (1 <= z <= 2 ^ 53)%Z -> moderate (inject_Z z).
Proof.
  intros [H1 H2]. split.
  - apply Qle_trans with 1; [discriminate|].
    change 1 with (inject_Z 1). now rewrite <- Zle_Qle.
  - apply Qle_trans with (inject_Z (2 ^ 53)); [now rewrite <- Zle_Qle | discriminate].
Qed.

Lemma moderate_square_in_range (sigma : Q) :
  moderate sigma -> square_in_range (PyFloat (Fin sigma)).
Proof.
  intro H. pose proof (moderate_pos sigma H) as P. destruct H as [_ H].
  right. exists sigma. split; [reflexivity|].
  rewrite Qabs_pos by lra. eapply Qle_trans; [exact H|]. apply Qpow2_le. lia.
Qed.

Lemma cell_of_grid (g : Z * Z -> float64) (S2 K : Z) (i j : nat) (d : float64) :
  (i < 9)%nat -> (j < 9)%nat ->
  nth j (nth i (map (fun a => map (fun c => g (a, c)) (around K)) (around S2)) []) d
  = g ((S2 - 4 + Z.of_nat i)%Z, (K - 4 + Z.of_nat j)%Z).
Proof.
  intros Hi Hj.
  rewrite (nth_map_in _ _ _ 0%Z) by exact Hi.
  rewrite (nth_map_in _ _ _ 0%Z) by exact Hj.
  now rewrite !nth_around by assumption.
Qed.

Section GridTheorems.

Context (L : libm).

(** C3. At t = 0 or v = 0 the pricer does not fail: with an option type
    "Call" or "Put" (a strike that is not zero, a volatility whose square
    does not overflow) it raises nothing, prints nothing and returns a
    float; at t = 0 (a Python float) and S = K this float is NaN. *)
Theorem BlackScholes_zero_time_or_volatility_returns
    (S K r t v : scalar) (s k rho tau sigma : Q) (type : string) :
  holds S s -> holds K k -> holds_float r rho -> holds_float t tau ->
  holds_float v sigma ->
  ~ k == 0 -> tau == 0 \/ sigma == 0 -> 0 <= tau -> square_in_range v ->
  type = "Call"%string \/ type = "Put"%string ->
  exists p : float64,
    BlackScholes L S K r t v type = ([], Ok (VNum (NpFloat p))) /\
    (is_np t = false -> s == k -> tau == 0 -> p = NaN).
Proof.
  intros HS HK Hr Ht Hv Hk Hz Htau Hsq Hty.
  destruct (BlackScholes_price L S K r t v s k rho tau sigma type)
    as (v2 & st & _ & _ & H); auto.
  eexists. split; [exact H|].
  intros Hnp Hsk Ht0.
  destruct t as [z|[x| | |]|z|[x| | |]]; simpl in Ht; try tauto; try discriminate.
  subst x.
  rewrite (BlackScholes_zero_time_nan L S K r v s k rho tau sigma type) in H
    by assumption.
  now injection H.
Qed.

(** C4. For anchors from 5 to [2^53 - 4] (the sliders give 50 to 200) and
    valid baseline parameters between [2^-500] and [2^500] (rates from 0),
    the times and the volatilities Python floats, the grid build returns a
    dense table of 9 rows of 9 cells: its two axes are the strictly
    ascending integers from anchor - 4 to anchor + 4, and the cell of row
    [i] and column [j] holds the finite number that the payoff engine
    returns with the strike replaced by the [j]-th strike and the exit spot
    by the [i]-th spot, the other parameters unchanged. *)
Theorem heatmap_data_dense_grid (S1 : scalar) (K : Z) (r1 : scalar) (S2 : Z)
    (r2 : scalar) (s1 rho1 tau1 sigma1 rho2 tau2 sigma2 : Q)
    (type position : string) :
  (5 <= S2 <= 2 ^ 53 - 4)%Z -> (5 <= K <= 2 ^ 53 - 4)%Z ->
  holds S1 s1 -> holds_float r1 rho1 -> holds_float r2 rho2 ->
  moderate s1 -> 0 <= rho1 -> rho1 <= Qpow2 500 ->
  moderate tau1 -> moderate sigma1 ->
  0 <= rho2 -> rho2 <= Qpow2 500 -> moderate tau2 -> moderate sigma2 ->
  type = "Call"%string \/ type = "Put"%string ->
  exists f : frame,
    heatmap_data L S1 K r1 (PyFloat (Fin tau1)) (PyFloat (Fin sigma1))
                 S2 r2 (PyFloat (Fin tau2)) (PyFloat (Fin sigma2)) type position
      = ([], Ok f) /\
    index f = around S2 /\ columns f = around K /\
    ascending (index f) /\ ascending (columns f) /\
    length (data f) = 9%nat /\
    Forall (fun row => length row = 9%nat) (data f) /\
    forall i j : nat, (i < 9)%nat -> (j < 9)%nat ->
      exists p : Q,
        calculate_payoff L S1 (np_int (K - 4 + Z.of_nat j)) r1
                         (PyFloat (Fin tau1)) (PyFloat (Fin sigma1))
                         (np_int (S2 - 4 + Z.of_nat i)) r2
                         (PyFloat (Fin tau2)) (PyFloat (Fin sigma2)) type position
          = ([], Ok (VNum (NpFloat (Fin p)))) /\
        nth j (nth i (data f) []) NaN = Fin p.
Proof.
  intros HS2 HK HS1 Hr1 Hr2 Hs1 Ha1 Hb1 Ht1 Hv1 Ha2 Hb2 Ht2 Hv2 Hty.
  assert (Hcell : forall spot strike, In spot (around S2) -> In strike (around K) ->
            exists p : Q,
              calculate_payoff L S1 (np_int strike) r1
                               (PyFloat (Fin tau1)) (PyFloat (Fin sigma1))
                               (np_int spot) r2
                               (PyFloat (Fin tau2)) (PyFloat (Fin sigma2)) type position
              = ([], Ok (VNum (NpFloat (Fin p))))).
  { intros spot strike Hs Hk. apply in_around in Hs, Hk.
    apply (calculate_payoff_finite L S1 (np_int strike) r1 (np_int spot) r2
             s1 (inject_Z strike) rho1 tau1 sigma1 (inject_Z spot) rho2 tau2 sigma2);
      auto; try (apply holds_np_int; lia); apply moderate_int; lia. }
  rewrite (heatmap_data_rows L S1 K r1 _ _ S2 r2 _ _ type position
             (around S2) (around K)); try (apply ranges_exact; lia).
  2:{ intros spot strike Hs Hk. destruct (Hcell spot strike Hs Hk) as [p Hp]. eauto. }
  rewrite pivot_cross; try apply ascending_around; try discriminate.
  eexists. split; [reflexivity|]. cbn [index columns data].
  repeat split; try apply ascending_around.
  - unfold around. repeat constructor.
  - intros i j Hi Hj.
    destruct (Hcell (S2 - 4 + Z.of_nat i)%Z (K - 4 + Z.of_nat j)%Z) as [p Hp];
      try now apply in_around_nth.
    exists p. split; [exact Hp|].
    rewrite (cell_of_grid
               (fun a => cell_value (returned VNone
                  (calculate_payoff L S1 (np_int (snd a)) r1
                     (PyFloat (Fin tau1)) (PyFloat (Fin sigma1))
                     (np_int (fst a)) r2
                     (PyFloat (Fin tau2)) (PyFloat (Fin sigma2)) type position))))
      by assumption.
    cbn [fst snd]. rewrite Hp. reflexivity.
Qed.

(** C5 (amended). For every integer anchor [x] with [|x| <= 2^53 - 4] the
    range generator returns exactly nine integers, [x - 4] through [x + 4]
    inclusive, in strictly increasing order with step 1. *)
Theorem ranges_nine_consecutive (x : Z) :
  (Z.abs x <= 2 ^ 53 - 4)%Z ->
  exists l : list Z,
    ranges x = ([], Ok l) /\
    length l = 9%nat /\
    (forall i : nat, (i < 9)%nat -> nth i l 0%Z = (x - 4 + Z.of_nat i)%Z) /\
    (forall i : nat, (i < 8)%nat -> nth (S i) l 0%Z = (nth i l 0 + 1)%Z).
Proof.
  intro Hx. exists (around x). split; [now apply ranges_exact|].
  split; [reflexivity|].
  split; intros i Hi;
    do 9 (destruct i as [|i]; [simpl; lia|]); lia.
Qed.

(** C9. With the time to expiry of the entry snapshot zero (an input on
    which the pricer is to fail) and the other parameters valid, the grid
    build does not fail: it returns a table, and when the entry spot is one
    of the strikes, the whole column of this strike holds NaN. *)
Theorem heatmap_data_zero_time_returns_table (S1 K : Z) (r1 : scalar) (S2 : Z)
    (r2 : scalar) (rho1 sigma1 rho2 tau2 sigma2 : Q) (type position : string)
    (j : nat) :
  (5 <= S2 <= 2 ^ 53 - 4)%Z -> (5 <= K <= 2 ^ 53 - 4)%Z ->
  (j < 9)%nat -> S1 = (K - 4 + Z.of_nat j)%Z ->
  holds_float r1 rho1 -> holds_float r2 rho2 ->
  moderate sigma1 -> moderate tau2 -> moderate sigma2 ->
  type = "Call"%string \/ type = "Put"%string ->
  exists f : frame,
    heatmap_data L (PyInt S1) K r1 (PyFloat (Fin 0)) (PyFloat (Fin sigma1))
                 S2 r2 (PyFloat (Fin tau2)) (PyFloat (Fin sigma2)) type position
      = ([], Ok f) /\
    index f = around S2 /\ columns f = around K /\
    length (data f) = 9%nat /\
    forall i : nat, (i < 9)%nat -> nth j (nth i (data f) []) (Fin 0) = NaN.
Proof.
  intros HS2 HK Hj HS1 Hr1 Hr2 Hv1 Ht2 Hv2 Hty.
  pose proof (moderate_pos tau2 Ht2) as Pt2.
  pose proof (moderate_square_in_range sigma1 Hv1) as Q1.
  pose proof (moderate_square_in_range sigma2 Hv2) as Q2.
  assert (HS1' : holds (PyInt S1) (inject_Z S1)) by (split; [lia | reflexivity]).
  assert (Hnz : forall z, (1 <= z)%Z -> ~ inject_Z z == 0).
  { intros z Hz H. unfold Qeq, inject_Z in H. simpl in H. lia. }
  rewrite (heatmap_data_rows L (PyInt S1) K r1 _ _ S2 r2 _ _ type position
             (around S2) (around K)); try (apply ranges_exact; lia).
  2:{ intros spot strike Hs Hk. apply in_around in Hs, Hk.
      apply (calculate_payoff_returns_price L (PyInt S1) (np_int strike) r1 _ _
               (np_int spot) r2 _ _
               (inject_Z S1) (inject_Z strike) rho1 0 sigma1
               (inject_Z spot) rho2 tau2 sigma2);
        auto; try reflexivity; try (apply holds_np_int; lia); try lra.
      apply Hnz. lia. }
  rewrite pivot_cross; try apply ascending_around; try discriminate.
  eexists. split; [reflexivity|]. cbn [index columns data].
  repeat split.
  intros i Hi.
  rewrite (cell_of_grid
             (fun a => cell_value (returned VNone
                (calculate_payoff L (PyInt S1) (np_int (snd a)) r1
                   (PyFloat (Fin 0)) (PyFloat (Fin sigma1))
                   (np_int (fst a)) r2
                   (PyFloat (Fin tau2)) (PyFloat (Fin sigma2)) type position))))
    by assumption.
  cbn [fst snd]. rewrite <- HS1.
  assert (He : BlackScholes L (PyInt S1) (np_int S1) r1 (PyFloat (Fin 0))
                 (PyFloat (Fin sigma1)) type = ([], Ok (VNum (NpFloat NaN)))).
  { apply (BlackScholes_zero_time_nan L _ _ _ _ (inject_Z S1) (inject_Z S1) rho1 0 sigma1);
      auto; try reflexivity; try (apply holds_np_int; lia).
    apply Hnz. lia. }
  destruct (BlackScholes_price L (np_int (S2 - 4 + Z.of_nat i)) (np_int S1) r2
              (PyFloat (Fin tau2)) (PyFloat (Fin sigma2))
              (inject_Z (S2 - 4 + Z.of_nat i)) (inject_Z S1) rho2 tau2 sigma2 type)
    as (a & b & _ & _ & Hx); auto; try reflexivity; try (apply holds_np_int; lia);
    try lra.
  { apply Hnz. lia. }
  rewrite (calculate_payoff_prices L _ _ _ _ _ _ _ _ _ _ position _ _ _ _ He Hx).
  cbn [returned snd cell_value value].
  destruct (String.eqb position "Long");
    now rewrite ?fsub_nan_l, ?fsub_nan_r, fmul_nan_l.
Qed.

End GridTheorems.

Lemma moderate_eighth : moderate (1 # 8).
Proof. split; discriminate. Qed.

Lemma moderate_quarter : moderate (1 # 4).
Proof. split; discriminate. Qed.

Lemma moderate_100 : moderate 100.
Proof. split; discriminate. Qed.

Lemma BlackScholes_zero_time_or_volatility_returns_witness :
  exists p : float64,
    BlackScholes sample_libm (PyInt 100) (PyInt 100) (PyFloat (Fin (1 # 32)))
                 (PyFloat (Fin 0)) (PyFloat (Fin (1 # 4))) "Call"
      = ([], Ok (VNum (NpFloat p))) /\
    (is_np (PyFloat (Fin 0)) = false -> 100 == 100 -> 0 == 0 -> p = NaN).
Proof.
  apply (BlackScholes_zero_time_or_volatility_returns sample_libm
           (PyInt 100) (PyInt 100) (PyFloat (Fin (1 # 32)))
           (PyFloat (Fin 0)) (PyFloat (Fin (1 # 4)))
           100 100 (1 # 32) 0 (1 # 4) "Call");
    try reflexivity; try discriminate;
    try (split; [lia | reflexivity]).
  - left. reflexivity.
  - apply square_in_range_quarter.
  - left. reflexivity.
Defined.

Lemma heatmap_data_dense_grid_witness :
  exists f : frame,
    heatmap_data sample_libm (PyInt 100) 95 (PyFloat (Fin (1 # 32)))
                 (PyFloat (Fin (1 # 8))) (PyFloat (Fin (1 # 4)))
                 101 (PyFloat (Fin (1 # 32)))
                 (PyFloat (Fin (1 # 8))) (PyFloat (Fin (1 # 4))) "Call" "Long"
      = ([], Ok f) /\
    index f = around 101 /\ columns f = around 95 /\
    ascending (index f) /\ ascending (columns f) /\
    length (data f) = 9%nat /\
    Forall (fun row => length row = 9%nat) (data f) /\
    forall i j : nat, (i < 9)%nat -> (j < 9)%nat ->
      exists p : Q,
        calculate_payoff sample_libm (PyInt 100) (np_int (95 - 4 + Z.of_nat j))
                         (PyFloat (Fin (1 # 32)))
                         (PyFloat (Fin (1 # 8))) (PyFloat (Fin (1 # 4)))
                         (np_int (101 - 4 + Z.of_nat i)) (PyFloat (Fin (1 # 32)))
                         (PyFloat (Fin (1 # 8))) (PyFloat (Fin (1 # 4))) "Call" "Long"
          = ([], Ok (VNum (NpFloat (Fin p)))) /\
        nth j (nth i (data f) []) NaN = Fin p.
Proof.
  apply (heatmap_data_dense_grid sample_libm (PyInt 100) 95 (PyFloat (Fin (1 # 32)))
           101 (PyFloat (Fin (1 # 32)))
           100 (1 # 32) (1 # 8) (1 # 4) (1 # 32) (1 # 8) (1 # 4) "Call" "Long");
    try reflexivity; try discriminate; try lia;
    try (split; [lia | reflexivity]);
    auto using moderate_eighth, moderate_quarter, moderate_100.
Defined.

Lemma ranges_nine_consecutive_witness :
  exists l : list Z,
    ranges 100 = ([], Ok l) /\
    length l = 9%nat /\
    (forall i : nat, (i < 9)%nat -> nth i l 0%Z = (100 - 4 + Z.of_nat i)%Z) /\
    (forall i : nat, (i < 8)%nat -> nth (S i) l 0%Z = (nth i l 0 + 1)%Z).
Proof. apply (ranges_nine_consecutive 100). lia. Defined.

(** The anchor [2^53 + 1]: its bounds are not all binary64 numbers, and
    the axis has repeated values and ends below [x + 4]. *)
Lemma ranges_large_anchor :
  ranges 9007199254740993
    = ([], Ok [9007199254740989; 9007199254740990; 9007199254740991;
               9007199254740992; 9007199254740992; 9007199254740994;
               9007199254740994; 9007199254740996; 9007199254740996]%Z).
Proof. vm_compute. reflexivity. Qed.

Lemma heatmap_data_zero_time_returns_table_witness :
  exists f : frame,
    heatmap_data sample_libm (PyInt 95) 95 (PyFloat (Fin (1 # 32)))
                 (PyFloat (Fin 0)) (PyFloat (Fin (1 # 4)))
                 101 (PyFloat (Fin (1 # 32)))
                 (PyFloat (Fin (1 # 8))) (PyFloat (Fin (1 # 4))) "Call" "Long"
      = ([], Ok f) /\
    index f = around 101 /\ columns f = around 95 /\
    length (data f) = 9%nat /\
    forall i : nat, (i < 9)%nat -> nth 4 (nth i (data f) []) (Fin 0) = NaN.
Proof.
  apply (heatmap_data_zero_time_returns_table sample_libm 95 95
           (PyFloat (Fin (1 # 32))) 101 (PyFloat (Fin (1 # 32)))
           (1 # 32) (1 # 4) (1 # 32) (1 # 8) (1 # 4) "Call" "Long" 4);
    try reflexivity; try lia;
    auto using moderate_eighth, moderate_quarter.
Defined.

Local Close Scope Q_scope.

Local Open Scope Q_scope.

Section Further.

Context (L : libm).







End Further.





